(** * GGUF codec and checkpoint conversion: a shallow embedding

    The development follows the two Go packages of the repository:
    - [llm] (file llm/gguf.go): the GGUF container reader and writer;
    - [convert] (files convert/convert.go, convert/tokenizer.go,
      convert/convert_llama.go, convert/convert_phi.go): vocabulary
      assembly, the architecture adapters and the conversion driver.

    Conventions.  Fixed-width integers are carried as [Z] with their
    wrap-around written out; a float32/float64 is carried as its IEEE-754
    bit pattern (what [encoding/binary] puts on the wire); a Go string is a
    [string] (a sequence of 8-bit characters); a file is a [list byte];
    a Go [map[string]any] is a [gmap string value].  Functions that can
    fail return a [result], which also records a run-time panic. *)

From Stdlib Require Import ZArith Strings.Byte Strings.Ascii.
From stdpp Require Import base tactics option list gmap strings pretty sorting.

Open Scope Z_scope.

(** ** Outcomes of fallible code *)

Inductive error : Type :=
| ErrEOF                                  (* io.EOF *)
| ErrUnexpectedEOF                        (* io.ErrUnexpectedEOF *)
| ErrSeek                                 (* Seek to an invalid position *)
| ErrBadPattern                           (* filepath.ErrBadPattern *)
| ErrInvalidType (t : Z)                  (* "invalid type: %d" *)
| ErrInvalidArrayType (t : Z)             (* "invalid array type: %d" *)
| ErrImproperType (k : string)            (* "improper type for '%s'" *)
| ErrUnknownArchitecture                  (* "unknown architecture" *)
| ErrUnsupportedArchitecture              (* "unsupported architecture" *)
| ErrUnknownTensorFormat                  (* "unknown tensor format" *)
| ErrInvalidTensorName (n : string)       (* "invalid tensor name: %q" *)
| ErrOther (msg : string).                (* an error of a collaborator *)

Inductive result (A : Type) : Type :=
| Ok (a : A)
| Err (e : error)
| Panic (msg : string).

Arguments Ok {A} a.
Arguments Err {A} e.
Arguments Panic {A} msg.

Definition rbind {A B} (m : result A) (f : A -> result B) : result B :=
  match m with
  | Ok a => f a
  | Err e => Err e
  | Panic s => Panic s
  end.

Declare Scope result_scope.
Delimit Scope result_scope with result.
Notation "'let*' p ':=' m 'in' k" := (rbind m (fun p => k))
  (at level 10, p pattern, m at level 100, k at level 200) : result_scope.
Open Scope result_scope.

Definition is_ok {A} (r : result A) : bool :=
  match r with Ok _ => true | _ => false end.

(** ** Fixed-width integers *)

Definition wrap (w : Z) (n : Z) : Z := n mod 2 ^ w.
Definition wrap32 : Z -> Z := wrap 32.
Definition wrap64 : Z -> Z := wrap 64.

(** Conversion of a [w]-bit pattern to the signed integer it denotes
    (Go's [int64(x)] for [x uint64], [int8], [int16], [int32] reads). *)
Definition to_signed (w : Z) (n : Z) : Z :=
  if n <? 2 ^ (w - 1) then n else n - 2 ^ w.

Definition int64_of_uint64 : Z -> Z := to_signed 64.

(** ** Bytes *)

Definition byte_of_Z (z : Z) : byte :=
  match Byte.of_N (Z.to_N (z mod 256)) with
  | Some b => b
  | None => x00
  end.

Definition Z_of_byte (b : byte) : Z := Z.of_N (Byte.to_N b).

(** [le_bytes n v]: the [n] low-order bytes of [v], least significant first.
    On a negative [v] this is the two's complement pattern, as
    [binary.Write] emits for signed integers. *)
Fixpoint le_bytes (n : nat) (v : Z) : list byte :=
  match n with
  | O => []
  | S n' => byte_of_Z (v mod 256) :: le_bytes n' (v / 256)
  end.

Fixpoint le_val (bs : list byte) : Z :=
  match bs with
  | [] => 0
  | b :: bs' => Z_of_byte b + 256 * le_val bs'
  end.

Definition bytes_of_string (s : string) : list byte := String.list_byte_of_string s.
Definition string_of_bytes (bs : list byte) : string := String.string_of_list_byte bs.

Definition zlen {A} (l : list A) : Z := Z.of_nat (length l).
Definition zstrlen (s : string) : Z := Z.of_nat (String.length s).

(** binary.ByteOrder *)
Inductive ByteOrder : Type := LittleEndian | BigEndian.

Definition bo_val (bo : ByteOrder) (bs : list byte) : Z :=
  match bo with
  | LittleEndian => le_val bs
  | BigEndian => le_val (rev bs)
  end.

(** ** Sorting: [slices.Sort] and [slices.SortFunc]

    Go sorts short slices (up to 12 elements) by insertion sort: each next
    element moves left while it is strictly less than its left neighbour.
    [bubble] is that inner loop on the reversed prefix.  Longer slices go
    through pattern-defeating quicksort, which yields some ordered
    permutation as well; the theorems below use nothing but that. *)

Section Sort.
Context {A : Type} (less : A -> A -> bool).

Fixpoint bubble (x : A) (rp : list A) : list A :=
    match rp with
    | [] => [x]
    | y :: rp' => if less x y then y :: bubble x rp' else x :: rp
    end.

Definition insertionSort (l : list A) : list A :=
    rev (fold_left (fun rp x => bubble x rp) l []).
End Sort.

(** cmp.Compare on strings is byte-wise lexicographic. *)
Definition str_less (a b : string) : bool := String.ltb a b.

Definition slices_Sort (keys : list string) : list string :=
  insertionSort str_less keys.

(** * Package llm (llm/gguf.go) *)

(** ** Metadata values

    The Go code stores metadata as [any].  The run-time types that occur are
    the scalar kinds of the container, strings, the four slice types the
    writer accepts, and [[]any], which is what the reader builds for every
    array. *)

Inductive numtype : Type :=
| Uint8 | Int8 | Uint16 | Int16 | Uint32 | Int32
| Uint64 | Int64 | Float32 | Float64.

Definition num_size (T : numtype) : nat :=
  match T with
  | Uint8 | Int8 => 1
  | Uint16 | Int16 => 2
  | Uint32 | Int32 | Float32 => 4
  | Uint64 | Int64 | Float64 => 8
  end%nat.

Definition num_signed (T : numtype) : bool :=
  match T with
  | Int8 | Int16 | Int32 | Int64 => true
  | _ => false
  end.

Definition num_bits (T : numtype) : Z := 8 * Z.of_nat (num_size T).

(** The number a bit pattern denotes at type [T] (floats stay bit patterns). *)
Definition num_interp (T : numtype) (bits : Z) : Z :=
  if num_signed T then to_signed (num_bits T) bits else bits.

Inductive scalar : Type :=
| SNum (T : numtype) (n : Z)
| SBool (b : bool)
| SString (s : string).

Inductive value : Type :=
| VScalar (x : scalar)
| VInt32s (l : list Z)          (* []int32 *)
| VUint32s (l : list Z)         (* []uint32 *)
| VFloat32s (l : list Z)        (* []float32, as bit patterns *)
| VStrings (l : list string)    (* []string *)
| VAnys (l : list scalar).      (* []any *)

Definition VUint32 (n : Z) : value := VScalar (SNum Uint32 n).
Definition VUint64 (n : Z) : value := VScalar (SNum Uint64 n).
Definition VFloat32 (bits : Z) : value := VScalar (SNum Float32 bits).
Definition VBool (b : bool) : value := VScalar (SBool b).
Definition VString (s : string) : value := VScalar (SString s).

(** Wire type codes, in the order of the [iota] block. *)
Inductive ggufType : Type :=
| ggufTypeUint8 | ggufTypeInt8 | ggufTypeUint16 | ggufTypeInt16
| ggufTypeUint32 | ggufTypeInt32 | ggufTypeFloat32 | ggufTypeBool
| ggufTypeString | ggufTypeArray | ggufTypeUint64 | ggufTypeInt64
| ggufTypeFloat64.

Definition ggufType_code (t : ggufType) : Z :=
  match t with
  | ggufTypeUint8 => 0 | ggufTypeInt8 => 1 | ggufTypeUint16 => 2
  | ggufTypeInt16 => 3 | ggufTypeUint32 => 4 | ggufTypeInt32 => 5
  | ggufTypeFloat32 => 6 | ggufTypeBool => 7 | ggufTypeString => 8
  | ggufTypeArray => 9 | ggufTypeUint64 => 10 | ggufTypeInt64 => 11
  | ggufTypeFloat64 => 12
  end.

Definition ggufType_of_code (c : Z) : option ggufType :=
  match c with
  | 0 => Some ggufTypeUint8 | 1 => Some ggufTypeInt8
  | 2 => Some ggufTypeUint16 | 3 => Some ggufTypeInt16
  | 4 => Some ggufTypeUint32 | 5 => Some ggufTypeInt32
  | 6 => Some ggufTypeFloat32 | 7 => Some ggufTypeBool
  | 8 => Some ggufTypeString | 9 => Some ggufTypeArray
  | 10 => Some ggufTypeUint64 | 11 => Some ggufTypeInt64
  | 12 => Some ggufTypeFloat64
  | _ => None
  end.

(** ** Tensors *)

Record Tensor : Type := mkTensor {
  Name : string;
  Kind : Z;                (* uint32 *)
  Offset : Z;              (* uint64 *)
  Shape : list Z;          (* []uint64 *)
  Payload : list byte      (* the bytes its io.WriterTo streams out *)
}.

(** Modelled from the spec: [Tensor.parameters] is declared outside the
    files at hand; the spec gives it as the product of the shape dimensions
    (a uint64, so the product wraps at 64 bits). *)
Definition Tensor_parameters (t : Tensor) : Z :=
  fold_left (fun count n => wrap64 (count * n)) (Shape t) 1.

(** Bytes per element of a tensor kind: a table of the container convention
    that is declared outside the files at hand. *)
Class ElementSizes : Type := bytes_per_element : Z -> Z.

(** Modelled from the spec: [Tensor.Size] is declared outside the files at
    hand; the spec gives size_bytes = product(shape) x bytes_per_element(kind),
    here in uint64 arithmetic. *)
Definition Tensor_Size `{ElementSizes} (t : Tensor) : Z :=
  wrap64 (Tensor_parameters t * bytes_per_element (Kind t)).

(** ** The input stream (io.ReadSeeker) *)

Record ReadSeeker : Type := mkRS {
  rs_data : list byte;
  rs_pos : Z
}.

Definition rs_rest (rs : ReadSeeker) : list byte :=
  drop (Z.to_nat (rs_pos rs)) (rs_data rs).

Definition rs_advance (n : Z) (rs : ReadSeeker) : ReadSeeker :=
  mkRS (rs_data rs) (rs_pos rs + n).

(** io.ReadFull, as binary.Read uses it: all [n] bytes or an error, which is
    EOF when nothing was left and ErrUnexpectedEOF on a partial read. *)
Definition io_ReadFull (n : nat) (rs : ReadSeeker)
  : result (list byte * ReadSeeker) :=
  let rest := rs_rest rs in
  if (n <=? length rest)%nat then Ok (take n rest, rs_advance (Z.of_nat n) rs)
  else if (length rest =? 0)%nat then Err ErrEOF
  else Err ErrUnexpectedEOF.

(** io.CopyN into a fresh bytes.Buffer.  A negative count copies nothing and
    reports no error; a short source reports io.EOF. *)
Definition io_CopyN (rs : ReadSeeker) (n : Z)
  : result (list byte * ReadSeeker) :=
  if n <? 0 then Ok ([], rs)
  else
    let rest := rs_rest rs in
    if n <=? zlen rest then Ok (take (Z.to_nat n) rest, rs_advance n rs)
    else Err ErrEOF.

(** bytes.Buffer.Truncate on a buffer that was never read from. *)
Definition Buffer_Truncate (b : list byte) (n : Z) : result (list byte) :=
  if n =? 0 then Ok []
  else if (n <? 0) || (zlen b <? n)
       then Panic "bytes.Buffer: truncation out of range"
       else Ok (take (Z.to_nat n) b).

(** rs.Seek(off, io.SeekCurrent): a position outside int64's non-negative
    range is refused. *)
Definition Seek_current (off : Z) (rs : ReadSeeker) : result (Z * ReadSeeker) :=
  let p := rs_pos rs + off in
  if (0 <=? p) && (p <? 2 ^ 63) then Ok (p, mkRS (rs_data rs) p)
  else Err ErrSeek.

(** ** Container and model state *)

Record containerGGUF : Type := mkContainer {
  c_ByteOrder : ByteOrder;
  c_Version : Z;
  V1_NumTensor : Z; V1_NumKV : Z;
  V2_NumTensor : Z; V2_NumKV : Z;
  V3_NumTensor : Z; V3_NumKV : Z
}.

Record gguf : Type := mkGGUF {
  g_container : containerGGUF;
  g_kv : gmap string value;
  g_tensors : list Tensor;
  g_parameters : Z
}.

Definition newGGUF (c : containerGGUF) : gguf := mkGGUF c ∅ [] 0.

Definition NewGGUFV3 (bo : ByteOrder) : gguf :=
  newGGUF (mkContainer bo 3 0 0 0 0 0 0).

Definition gguf_ByteOrder (llm : gguf) : ByteOrder := c_ByteOrder (g_container llm).
Definition gguf_Version (llm : gguf) : Z := c_Version (g_container llm).

Definition numTensor (llm : gguf) : Z :=
  match gguf_Version llm with
  | 1 => V1_NumTensor (g_container llm)
  | 2 => V2_NumTensor (g_container llm)
  | _ => V3_NumTensor (g_container llm)
  end.

Definition numKV (llm : gguf) : Z :=
  match gguf_Version llm with
  | 1 => V1_NumKV (g_container llm)
  | 2 => V2_NumKV (g_container llm)
  | _ => V3_NumKV (g_container llm)
  end.

(** ** Primitive reads *)

(** binary.Read of an unsigned [n]-byte integer. *)
Definition binary_Read (n : nat) (bo : ByteOrder) (rs : ReadSeeker)
  : result (Z * ReadSeeker) :=
  let* (bs, rs') := io_ReadFull n rs in
  Ok (bo_val bo bs, rs').

(** readGGUF[T] at a numeric type [T]. *)
Definition readGGUF (T : numtype) (llm : gguf) (rs : ReadSeeker)
  : result (Z * ReadSeeker) :=
  let* (bits, rs') := binary_Read (num_size T) (gguf_ByteOrder llm) rs in
  Ok (num_interp T bits, rs').

(** readGGUF[bool]: one byte, true when it is not zero. *)
Definition readGGUF_bool (llm : gguf) (rs : ReadSeeker)
  : result (bool * ReadSeeker) :=
  let* (b, rs') := binary_Read 1 (gguf_ByteOrder llm) rs in
  Ok (negb (b =? 0), rs').

Definition readGGUFV1String (llm : gguf) (rs : ReadSeeker)
  : result (string * ReadSeeker) :=
  let* (length, rs1) := binary_Read 8 (gguf_ByteOrder llm) rs in
  let* (b, rs2) := io_CopyN rs1 (int64_of_uint64 length) in
  (* gguf v1 strings are null-terminated *)
  let* b' := Buffer_Truncate b (zlen b - 1) in
  Ok (string_of_bytes b', rs2).

Definition readGGUFString (llm : gguf) (rs : ReadSeeker)
  : result (string * ReadSeeker) :=
  if gguf_Version llm =? 1 then readGGUFV1String llm rs
  else
    let* (length, rs1) := binary_Read 8 (gguf_ByteOrder llm) rs in
    let* (b, rs2) := io_CopyN rs1 (int64_of_uint64 length) in
    Ok (string_of_bytes b, rs2).

Definition readNum (T : numtype) (llm : gguf) (rs : ReadSeeker)
  : result (scalar * ReadSeeker) :=
  let* (n, rs') := readGGUF T llm rs in Ok (SNum T n, rs').

Definition readBool (llm : gguf) (rs : ReadSeeker)
  : result (scalar * ReadSeeker) :=
  let* (b, rs') := readGGUF_bool llm rs in Ok (SBool b, rs').

Definition readStr (rd : gguf -> ReadSeeker -> result (string * ReadSeeker))
  (llm : gguf) (rs : ReadSeeker) : result (scalar * ReadSeeker) :=
  let* (s, rs') := rd llm rs in Ok (SString s, rs').

(** The [switch t] in the body of the array loops; the two array readers
    differ in the string reader they pass. *)
Definition readArrayElem (rd : gguf -> ReadSeeker -> result (string * ReadSeeker))
  (llm : gguf) (t : Z) (rs : ReadSeeker) : result (scalar * ReadSeeker) :=
  match ggufType_of_code t with
  | Some ggufTypeUint8 => readNum Uint8 llm rs
  | Some ggufTypeInt8 => readNum Int8 llm rs
  | Some ggufTypeUint16 => readNum Uint16 llm rs
  | Some ggufTypeInt16 => readNum Int16 llm rs
  | Some ggufTypeUint32 => readNum Uint32 llm rs
  | Some ggufTypeInt32 => readNum Int32 llm rs
  | Some ggufTypeUint64 => readNum Uint64 llm rs
  | Some ggufTypeInt64 => readNum Int64 llm rs
  | Some ggufTypeFloat32 => readNum Float32 llm rs
  | Some ggufTypeFloat64 => readNum Float64 llm rs
  | Some ggufTypeBool => readBool llm rs
  | Some ggufTypeString => readStr rd llm rs
  | _ => Err (ErrInvalidArrayType t)
  end.

(** [for i := 0; i < n; i++ { ...; a = append(a, e) }] *)
Fixpoint readArrayLoop (rd : gguf -> ReadSeeker -> result (string * ReadSeeker))
  (llm : gguf) (t : Z) (n : nat) (a : list scalar) (rs : ReadSeeker)
  : result (list scalar * ReadSeeker) :=
  match n with
  | O => Ok (a, rs)
  | S n' =>
      let* (e, rs') := readArrayElem rd llm t rs in
      readArrayLoop rd llm t n' (a ++ [e]) rs'
  end.

Definition readGGUFV1Array (llm : gguf) (rs : ReadSeeker)
  : result (list scalar * ReadSeeker) :=
  let* (t, rs1) := readGGUF Uint32 llm rs in
  let* (n, rs2) := readGGUF Uint32 llm rs1 in
  readArrayLoop readGGUFV1String llm t (Z.to_nat n) [] rs2.

Definition readGGUFArray (llm : gguf) (rs : ReadSeeker)
  : result (list scalar * ReadSeeker) :=
  if gguf_Version llm =? 1 then readGGUFV1Array llm rs
  else
    let* (t, rs1) := readGGUF Uint32 llm rs in
    let* (n, rs2) := readGGUF Uint64 llm rs1 in
    readArrayLoop readGGUFString llm t (Z.to_nat n) [] rs2.

(** ggufPadding; Go's [%] truncates towards zero and panics on a zero
    divisor. *)
Definition ggufPadding (offset align : Z) : result Z :=
  if align =? 0 then Panic "runtime error: integer divide by zero"
  else Ok (Z.rem (align - Z.rem offset align) align).

(** ** gguf.Decode *)

Definition asValue (r : result (scalar * ReadSeeker))
  : result (value * ReadSeeker) :=
  let* (x, rs') := r in Ok (VScalar x, rs').

(** The [switch t] of the key-value loop. *)
Definition decodeValue (llm : gguf) (t : Z) (rs : ReadSeeker)
  : result (value * ReadSeeker) :=
  match ggufType_of_code t with
  | Some ggufTypeUint8 => asValue (readNum Uint8 llm rs)
  | Some ggufTypeInt8 => asValue (readNum Int8 llm rs)
  | Some ggufTypeUint16 => asValue (readNum Uint16 llm rs)
  | Some ggufTypeInt16 => asValue (readNum Int16 llm rs)
  | Some ggufTypeUint32 => asValue (readNum Uint32 llm rs)
  | Some ggufTypeInt32 => asValue (readNum Int32 llm rs)
  | Some ggufTypeUint64 => asValue (readNum Uint64 llm rs)
  | Some ggufTypeInt64 => asValue (readNum Int64 llm rs)
  | Some ggufTypeFloat32 => asValue (readNum Float32 llm rs)
  | Some ggufTypeFloat64 => asValue (readNum Float64 llm rs)
  | Some ggufTypeBool => asValue (readBool llm rs)
  | Some ggufTypeString => asValue (readStr readGGUFString llm rs)
  | Some ggufTypeArray =>
      let* (a, rs') := readGGUFArray llm rs in Ok (VAnys a, rs')
  | None => Err (ErrInvalidType t)
  end.

Definition set_kv (llm : gguf) (k : string) (v : value) : gguf :=
  mkGGUF (g_container llm) (<[k := v]> (g_kv llm)) (g_tensors llm)
         (g_parameters llm).

(** [for i := 0; uint64(i) < llm.numKV(); i++ { ...; llm.kv[k] = v }] *)
Fixpoint decodeKVs (n : nat) (llm : gguf) (rs : ReadSeeker)
  : result (gguf * ReadSeeker) :=
  match n with
  | O => Ok (llm, rs)
  | S n' =>
      let* (k, rs1) := readGGUFString llm rs in
      let* (t, rs2) := readGGUF Uint32 llm rs1 in
      let* (v, rs3) := decodeValue llm t rs2 in
      decodeKVs n' (set_kv llm k v) rs3
  end.

(** [for i := 0; uint32(i) < dims; i++ { shape[i], err = readGGUF[uint64] }] *)
Fixpoint readShape (n : nat) (llm : gguf) (shape : list Z) (rs : ReadSeeker)
  : result (list Z * ReadSeeker) :=
  match n with
  | O => Ok (shape, rs)
  | S n' =>
      let* (d, rs') := readGGUF Uint64 llm rs in
      readShape n' llm (shape ++ [d]) rs'
  end.

Definition add_tensor (llm : gguf) (t : Tensor) : gguf :=
  mkGGUF (g_container llm) (g_kv llm) (g_tensors llm ++ [t])
         (wrap64 (g_parameters llm + Tensor_parameters t)).

Fixpoint decodeTensors (n : nat) (llm : gguf) (rs : ReadSeeker)
  : result (gguf * ReadSeeker) :=
  match n with
  | O => Ok (llm, rs)
  | S n' =>
      let* (name, rs1) := readGGUFString llm rs in
      (* dims is the number of dimensions in the tensor *)
      let* (dims, rs2) := readGGUF Uint32 llm rs1 in
      let* (shape, rs3) := readShape (Z.to_nat dims) llm [] rs2 in
      let* (kind, rs4) := readGGUF Uint32 llm rs3 in
      let* (offset, rs5) := readGGUF Uint64 llm rs4 in
      let tensor := mkTensor name kind offset shape [] in
      decodeTensors n' (add_tensor llm tensor) rs5
  end.

(** [for _, tensor := range llm.tensors]: seek past each payload and its
    padding. *)
Fixpoint skipTensors `{ElementSizes} (alignment : Z) (ts : list Tensor)
  (rs : ReadSeeker) : result ReadSeeker :=
  match ts with
  | [] => Ok rs
  | tensor :: ts' =>
      let* (_, rs1) := Seek_current (int64_of_uint64 (Tensor_Size tensor)) rs in
      let* padding := ggufPadding (int64_of_uint64 (Tensor_Size tensor)) alignment in
      let* (_, rs2) := Seek_current padding rs1 in
      skipTensors alignment ts' rs2
  end.

(** [llm.kv["general.alignment"].(uint32)], 32 when absent or of another type *)
Definition kv_alignment (kv : gmap string value) : Z :=
  match kv !! "general.alignment" with
  | Some (VScalar (SNum Uint32 a)) => a
  | _ => 32
  end.

Definition gguf_Decode `{ElementSizes} (llm : gguf) (rs : ReadSeeker)
  : result (gguf * ReadSeeker) :=
  (* decode key-values *)
  let* (llm1, rs1) := decodeKVs (Z.to_nat (numKV llm)) llm rs in
  (* decode tensors *)
  let* (llm2, rs2) := decodeTensors (Z.to_nat (numTensor llm1)) llm1 rs1 in
  (* patch KV with parameter count *)
  let llm3 := set_kv llm2 "general.parameter_count" (VUint64 (g_parameters llm2)) in
  let alignment := kv_alignment (g_kv llm3) in
  let* (offset, rs3) := Seek_current 0 rs2 in
  let* padding := ggufPadding offset alignment in
  let* (_, rs4) := Seek_current padding rs3 in
  let* rs5 := skipTensors alignment (g_tensors llm3) rs4 in
  Ok (llm3, rs5).

(** containerGGUF.Decode: the version, then the two counts, 32-bit wide in
    version 1 and 64-bit wide otherwise (one binary.Read of the struct). *)
Definition readCounts (w : nat) (bo : ByteOrder) (rs : ReadSeeker)
  : result (Z * Z * ReadSeeker) :=
  let* (bs, rs') := io_ReadFull (w + w) rs in
  Ok (bo_val bo (take w bs), bo_val bo (drop w bs), rs').

Definition containerGGUF_Decode `{ElementSizes} (c : containerGGUF)
  (rs : ReadSeeker) : result (gguf * ReadSeeker) :=
  let bo := c_ByteOrder c in
  let* (version, rs1) := binary_Read 4 bo rs in
  let* (c', rs2) :=
    match version with
    | 1 => let* (nt, nkv, rs') := readCounts 4 bo rs1 in
           Ok (mkContainer bo version nt nkv (V2_NumTensor c) (V2_NumKV c)
                           (V3_NumTensor c) (V3_NumKV c), rs')
    | 2 => let* (nt, nkv, rs') := readCounts 8 bo rs1 in
           Ok (mkContainer bo version (V1_NumTensor c) (V1_NumKV c) nt nkv
                           (V3_NumTensor c) (V3_NumKV c), rs')
    | _ => let* (nt, nkv, rs') := readCounts 8 bo rs1 in
           Ok (mkContainer bo version (V1_NumTensor c) (V1_NumKV c)
                           (V2_NumTensor c) (V2_NumKV c) nt nkv, rs')
    end in
  gguf_Decode (newGGUF c') rs2.

(** ** The output sink (io.WriteSeeker)

    The writer only appends and asks for its position; the sink is the
    position it started at and the bytes written since. *)

Record WriteSeeker : Type := mkWS {
  ws_base : Z;
  ws_out : list byte
}.

Definition ws_pos (ws : WriteSeeker) : Z := ws_base ws + zlen (ws_out ws).

Definition ws_write (bs : list byte) (ws : WriteSeeker) : WriteSeeker :=
  mkWS (ws_base ws) (ws_out ws ++ bs).

(** binary.Write(w, binary.LittleEndian, v) at an [n]-byte integer type *)
Definition binary_Write (n : nat) (v : Z) (ws : WriteSeeker) : WriteSeeker :=
  ws_write (le_bytes n v) ws.

Definition binary_Write_bool (b : bool) (ws : WriteSeeker) : WriteSeeker :=
  ws_write [byte_of_Z (if b then 1 else 0)] ws.

(** bytes.Repeat([]byte{0}, count) panics on a negative count. *)
Definition bytes_Repeat_zero (count : Z) : result (list byte) :=
  if count <? 0 then Panic "bytes: negative Repeat count"
  else Ok (replicate (Z.to_nat count) x00).

(** writeGGUF[V]: the type tag, then the value *)
Definition writeGGUF (t : ggufType) (n : nat) (v : Z) (ws : WriteSeeker)
  : WriteSeeker :=
  binary_Write n v (binary_Write 4 (ggufType_code t) ws).

Definition writeGGUF_bool (t : ggufType) (v : bool) (ws : WriteSeeker)
  : WriteSeeker :=
  binary_Write_bool v (binary_Write 4 (ggufType_code t) ws).

Definition writeGGUFString (s : string) (ws : WriteSeeker) : WriteSeeker :=
  let ws1 := binary_Write 4 (ggufType_code ggufTypeString) ws in
  let ws2 := binary_Write 8 (zstrlen s) ws1 in
  ws_write (bytes_of_string s) ws2.

Definition writeGGUFArray (t : ggufType) (n : nat) (s : list Z)
  (ws : WriteSeeker) : WriteSeeker :=
  let ws1 := binary_Write 4 (ggufType_code ggufTypeArray) ws in
  let ws2 := binary_Write 4 (ggufType_code t) ws1 in
  let ws3 := binary_Write 8 (zlen s) ws2 in
  fold_left (fun w e => binary_Write n e w) s ws3.

Definition ggufWriteKV (ws : WriteSeeker) (k : string) (v : option value)
  : result WriteSeeker :=
  let ws1 := binary_Write 8 (zstrlen k) ws in
  let ws2 := ws_write (bytes_of_string k) ws1 in
  match v with
  | Some (VScalar (SNum Uint32 v)) => Ok (writeGGUF ggufTypeUint32 4 v ws2)
  | Some (VScalar (SNum Float32 v)) => Ok (writeGGUF ggufTypeFloat32 4 v ws2)
  | Some (VScalar (SBool v)) => Ok (writeGGUF_bool ggufTypeBool v ws2)
  | Some (VScalar (SString v)) => Ok (writeGGUFString v ws2)
  | Some (VInt32s v) => Ok (writeGGUFArray ggufTypeInt32 4 v ws2)
  | Some (VUint32s v) => Ok (writeGGUFArray ggufTypeUint32 4 v ws2)
  | Some (VFloat32s v) => Ok (writeGGUFArray ggufTypeFloat32 4 v ws2)
  | Some (VStrings v) =>
      let ws3 := binary_Write 4 (ggufType_code ggufTypeArray) ws2 in
      let ws4 := binary_Write 4 (ggufType_code ggufTypeString) ws3 in
      let ws5 := binary_Write 8 (zlen v) ws4 in
      Ok (fold_left
            (fun w e => ws_write (bytes_of_string e) (binary_Write 8 (zstrlen e) w))
            v ws5)
  | _ => Err (ErrImproperType k)
  end.

(** [for i := 0; i < len(t.Shape); i++ { write(t.Shape[len(t.Shape)-i-1]) }] *)
Definition writeShape (shape : list Z) (ws : WriteSeeker) : WriteSeeker :=
  fold_left
    (fun w i => binary_Write 8 (nth (length shape - i - 1) shape 0) w)
    (seq 0 (length shape)) ws.

Definition ggufWriteTensorInfo (ws : WriteSeeker) (t : Tensor) : WriteSeeker :=
  let ws1 := binary_Write 8 (zstrlen (Name t)) ws in
  let ws2 := ws_write (bytes_of_string (Name t)) ws1 in
  let ws3 := binary_Write 4 (zlen (Shape t)) ws2 in
  let ws4 := writeShape (Shape t) ws3 in
  let ws5 := binary_Write 4 (Kind t) ws4 in
  binary_Write 8 (Offset t) ws5.

Definition ggufWriteTensor (ws : WriteSeeker) (t : Tensor) (alignment : Z)
  : result WriteSeeker :=
  let ws1 := ws_write (Payload t) ws in
  let offset := ws_pos ws1 in
  let* padding := ggufPadding offset alignment in
  let* zeros := bytes_Repeat_zero padding in
  Ok (ws_write zeros ws1).

Definition set_Offset (t : Tensor) (s : Z) : Tensor :=
  mkTensor (Name t) (Kind t) s (Shape t) (Payload t).

Definition sortTensors (ts : list Tensor) : list Tensor :=
  insertionSort (fun i j => str_less (Name i) (Name j)) ts.

(** [for _, key := range keys { ggufWriteKV(ws, key, kv[key]) }] *)
Fixpoint writeKVs (kv : gmap string value) (keys : list string)
  (ws : WriteSeeker) : result WriteSeeker :=
  match keys with
  | [] => Ok ws
  | key :: keys' =>
      let* ws' := ggufWriteKV ws key (kv !! key) in
      writeKVs kv keys' ws'
  end.

(** [for _, t := range ts { t.Offset = s; ggufWriteTensorInfo(ws, t); s += t.Size() }] *)
Fixpoint writeTensorInfos `{ElementSizes} (s : Z) (ts : list Tensor)
  (ws : WriteSeeker) : WriteSeeker :=
  match ts with
  | [] => ws
  | t :: ts' =>
      let t' := set_Offset t s in
      let ws' := ggufWriteTensorInfo ws t' in
      writeTensorInfos (wrap64 (s + Tensor_Size t')) ts' ws'
  end.

Fixpoint writeTensors (ts : list Tensor) (alignment : Z) (ws : WriteSeeker)
  : result WriteSeeker :=
  match ts with
  | [] => Ok ws
  | t :: ts' =>
      let* ws' := ggufWriteTensor ws t alignment in
      writeTensors ts' alignment ws'
  end.

Definition magic : list byte := bytes_of_string "GGUF".

Definition WriteGGUF `{ElementSizes} (ws : WriteSeeker)
  (kv : gmap string value) (ts : list Tensor) : result WriteSeeker :=
  let ws1 := ws_write magic ws in
  let ws2 := binary_Write 4 3 ws1 in
  let ws3 := binary_Write 8 (zlen ts) ws2 in
  let ws4 := binary_Write 8 (Z.of_nat (size kv)) ws3 in
  let keys := slices_Sort (map fst (map_to_list kv)) in
  let* ws5 := writeKVs kv keys ws4 in
  let ts := sortTensors ts in
  let ws6 := writeTensorInfos 0 ts ws5 in
  let offset := ws_pos ws6 in
  let alignment := 32 in
  let* padding := ggufPadding offset alignment in
  let* zeros := bytes_Repeat_zero padding in
  let ws7 := ws_write zeros ws6 in
  writeTensors ts alignment ws7.

(** * Package convert *)

(** ** Strings (package strings, strconv, fmt) *)

Fixpoint str_drop (n : nat) (s : string) : string :=
  match n, s with
  | O, _ => s
  | S n', String _ s' => str_drop n' s'
  | S _, EmptyString => EmptyString
  end.

Fixpoint str_take (n : nat) (s : string) : string :=
  match n, s with
  | S n', String c s' => String c (str_take n' s')
  | _, _ => EmptyString
  end.

(** strings.Index, counting from [i] *)
Fixpoint strings_Index_from (i : nat) (s sep : string) : option nat :=
  if String.prefix sep s then Some i
  else match s with
       | EmptyString => None
       | String _ s' => strings_Index_from (S i) s' sep
       end.

Definition strings_Index (s sep : string) : option nat :=
  strings_Index_from 0 s sep.

(** strings.LastIndex: the last position at which [sep] occurs *)
Fixpoint strings_LastIndex_from (i : nat) (found : option nat) (s sep : string)
  : option nat :=
  let found' := if String.prefix sep s then Some i else found in
  match s with
  | EmptyString => found'
  | String _ s' => strings_LastIndex_from (S i) found' s' sep
  end.

Definition strings_LastIndex (s sep : string) : option nat :=
  strings_LastIndex_from 0 None s sep.

(** strings.Cut *)
Definition strings_Cut (s sep : string) : string * string * bool :=
  match strings_Index s sep with
  | Some i => (str_take i s, str_drop (i + String.length sep) s, true)
  | None => (s, "", false)
  end.

(** convert.cutLast *)
Definition cutLast (s sep : string) : string * string * bool :=
  match strings_LastIndex s sep with
  | Some i => (str_take i s, str_drop (i + String.length sep) s, true)
  | None => (s, "", false)
  end.

Definition strings_HasSuffix (s suffix : string) : bool :=
  (String.length suffix <=? String.length s)%nat
  && String.eqb (str_drop (String.length s - String.length suffix) s) suffix.

Definition strings_Join (elems : list string) (sep : string) : string :=
  String.concat sep elems.

Definition is_digit (c : ascii) : bool :=
  match Ascii.is_nat c with Some _ => true | None => false end.

Fixpoint all_digits (s : string) : bool :=
  match s with
  | EmptyString => true
  | String c s' => is_digit c && all_digits s'
  end.

Fixpoint digits_val (acc : Z) (s : string) : Z :=
  match s with
  | EmptyString => acc
  | String c s' =>
      digits_val (10 * acc + match Ascii.is_nat c with
                             | Some d => Z.of_nat d
                             | None => 0
                             end) s'
  end.

(** strconv.Atoi: an optional sign, then one or more decimal digits, and the
    value has to fit an int (64 bits).  [None] stands for its error. *)
Definition strconv_Atoi (s : string) : option Z :=
  let '(neg, body) :=
    match s with
    | String "-" s' => (true, s')
    | String "+" s' => (false, s')
    | _ => (false, s)
    end in
  match body with
  | EmptyString => None
  | _ =>
      if all_digits body then
        let v := if neg then - digits_val 0 body else digits_val 0 body in
        if (- 2 ^ 63 <=? v) && (v <? 2 ^ 63) then Some v else None
      else None
  end.

(** fmt.Sprintf("%05d", i) for [i >= 0]: decimal, zero-padded to width 5 *)
Definition Sprintf_05d (i : Z) : string :=
  let digits := pretty (Z.to_N i) in
  String.concat "" (replicate (5 - String.length digits) "0") +:+ digits.

(** ** Vocabulary (convert/tokenizer.go) *)

Definition tokenTypeNormal : Z := 1.
Definition tokenTypeUnknown : Z := 2.
Definition tokenTypeControl : Z := 3.
Definition tokenTypeUserDefined : Z := 4.
Definition tokenTypeUnused : Z := 5.
Definition tokenTypeByte : Z := 6.

Record token : Type := mkToken {
  tok_ID : Z;               (* int *)
  tok_Content : string;
  tok_Special : bool;
  tok_UserDefined : bool
}.

(** The fields of tokenizer.json that the assembly uses. *)
Record tokenizer : Type := mkTokenizer {
  AddedTokens : list token;
  Model_Vocab : gmap string Z;
  Model_Merges : list string
}.

Record Vocabulary : Type := mkVocabulary {
  Tokens : list string;
  Scores : list Z;           (* []float32, as bit patterns *)
  Types : list Z;            (* []int32 *)
  Merges : list string
}.

(** float32(n) for an int [n]: round to nearest, ties to even, as a bit
    pattern. *)
Definition float32_of_int (n : Z) : Z :=
  if n =? 0 then 0
  else
    let sign := if n <? 0 then 2 ^ 31 else 0 in
    let a := Z.abs n in
    let e := Z.log2 a in
    let q :=
      if e <=? 23 then a * 2 ^ (23 - e)
      else
        let sh := e - 23 in
        let q0 := a / 2 ^ sh in
        let r := a mod 2 ^ sh in
        let half := 2 ^ (sh - 1) in
        if (half <? r) || ((r =? half) && Z.odd q0) then q0 + 1 else q0 in
    sign + (e + 127) * 2 ^ 23 + (q - 2 ^ 23).

Definition token_type (t : token) : Z :=
  if tok_Special t then tokenTypeControl
  else if tok_UserDefined t then tokenTypeUserDefined
  else tokenTypeNormal.

(** The assembly of parseVocabularyFromTokenizer, after tokenizer.json has
    been decoded into [bpe].  [vocab_range] is the order in which
    [range bpe.Model.Vocab] visits the entries, which Go leaves open. *)
Definition vocabularyFromTokenizer (bpe : tokenizer)
  (vocab_range : list (string * Z)) : Vocabulary :=
  let tokens :=
    map (fun kv => mkToken (snd kv) (fst kv) false false) vocab_range in
  let tokens :=
    tokens ++ map (fun t => mkToken (tok_ID t) (tok_Content t) (tok_Special t) true)
                  (AddedTokens bpe) in
  let tokens := insertionSort (fun i j => tok_ID i <? tok_ID j) tokens in
  fold_left
    (fun v t => mkVocabulary (Tokens v ++ [tok_Content t])
                             (Scores v ++ [float32_of_int (tok_ID t)])
                             (Types v ++ [token_type t])
                             (Merges v))
    tokens (mkVocabulary [] [] [] (Model_Merges bpe)).

(** parseVocabulary.  [glob pattern] is filepath.Glob on the directory joined
    with [pattern]; the two parsers are given their results on the directory;
    [range] is the order in which the loop visits the map [patterns]. *)
Inductive vocabParser : Type := SentencePiece | TokenizerJSON.

Definition patterns : list (string * vocabParser) :=
  [("tokenizer.model", SentencePiece); ("tokenizer.json", TokenizerJSON)].

Section parseVocabulary.
Variable glob : string -> result (list string).
Variable parseFn : vocabParser -> result Vocabulary.

Fixpoint parseVocabulary (range : list (string * vocabParser))
    : result Vocabulary :=
    match range with
    | [] => Err ErrUnknownTensorFormat
    | (pattern, fn) :: range' =>
        let* matches := glob pattern in
        if (0 <? length matches)%nat then parseFn fn
        else parseVocabulary range'
    end.
End parseVocabulary.

Record SpecialVocabulary : Type := mkSV {
  sv_Type : string;
  sv_ID : Z;                 (* int *)
  sv_Content : string;
  sv_AddToken : bool
}.

Definition SpecialVocabulary_Key (sv : SpecialVocabulary) : result string :=
  let t := sv_Type sv in
  if String.eqb t "bos" || String.eqb t "eos" then Ok t
  else if String.eqb t "pad" then Ok "padding"
  else if String.eqb t "unk" then Ok "unknown"
  else Panic "unknown special vocabulary type".

(** ** Base parameters (convert/convert.go) *)

Record Parameters : Type := mkParameters {
  Architectures : list string;
  VocabSize : Z              (* uint32 *)
}.

(** [for _, sv := range svs { kv[...sv.Key()...] = ...; kv[...sv.Key()...] = ... }] *)
Fixpoint specialKV (svs : list SpecialVocabulary) (kv : gmap string value)
  : result (gmap string value) :=
  match svs with
  | [] => Ok kv
  | sv :: svs' =>
      let* key := SpecialVocabulary_Key sv in
      let kv1 := <["tokenizer.ggml." +:+ key +:+ "_token_id" := VUint32 (wrap32 (sv_ID sv))]> kv in
      let* key := SpecialVocabulary_Key sv in
      let kv2 := <["tokenizer.ggml.add_" +:+ key +:+ "_token" := VBool (sv_AddToken sv)]> kv1 in
      specialKV svs' kv2
  end.

Definition Parameters_KV (v : Vocabulary) (svs : list SpecialVocabulary)
  : result (gmap string value) :=
  let kv : gmap string value :=
    <["tokenizer.ggml.token_type" := VInt32s (Types v)]>
    (<["tokenizer.ggml.scores" := VFloat32s (Scores v)]>
    (<["tokenizer.ggml.tokens" := VStrings (Tokens v)]>
    (<["tokenizer.ggml.pre" := VString "default"]>
    (<["general.file_type" := VUint32 1]> ∅)))) in
  specialKV svs kv.

Definition Parameters_SpecialTypes : list string :=
  ["bos"; "eos"; "unk"; "sep"; "pad"; "cls"; "mask"].

(** The vocabulary padding of the driver:
    [if vocabSize := int(p.VocabSize); vocabSize > len(v.Tokens) { for i := range ... }] *)
Definition padVocabulary (p : Parameters) (v : Vocabulary) : Vocabulary :=
  let vocabSize := VocabSize p in
  if zlen (Tokens v) <? vocabSize then
    fold_left
      (fun v i => mkVocabulary
                    (Tokens v ++ ["<dummy" +:+ Sprintf_05d (Z.of_nat i) +:+ ">"])
                    (Scores v ++ [float32_of_int (-1)])
                    (Types v ++ [tokenTypeUserDefined])
                    (Merges v))
      (seq 0 (Z.to_nat (vocabSize - zlen (Tokens v)))) v
  else v.

(** ** Tensors handed to the adapters

    The descriptor interface of the tensor readers: name, shape, kind, and a
    payload that may depend on the repacker the adapter has attached. *)

Inductive repacker : Type :=
| NoRepacker
| LlamaRepack (NumAttentionHeads NumKeyValueHeads : Z)
| GemmaAddOne.

Record inTensor : Type := mkInTensor {
  in_Name : string;
  in_Kind : Z;
  in_Shape : list Z;
  in_WriteTo : repacker -> list byte
}.

(** ** Llama adapter (convert/convert_llama.go) *)

Record llama : Type := mkLlama {
  l_Parameters : Parameters;
  NLayers : Z; NumHiddenLayers : Z; NLayer : Z;
  MaxPositionEmbeddings : Z; NCtx : Z;
  HiddenSize : Z; NEmbd : Z;
  IntermediateSize : Z; NInner : Z;
  NumAttentionHeads : Z; NHead : Z;
  NumKeyValueHeads : Z;
  RopeTheta : Z; RMSNormEPS : Z;                 (* float32 bit patterns *)
  LayerNormEPS : Z; LayerNormEpsilon : Z; NormEpsilon : Z;
  NumLocalExperts : Z; NumExpertsPerToken : Z
}.

(** float32 comparisons on bit patterns: [x == 0] holds of both zeros and
    [x > 0] of the positive non-NaN patterns. *)
Definition f32_is_zero (bits : Z) : bool := (bits =? 0) || (bits =? 2 ^ 31).
Definition f32_gt_zero (bits : Z) : bool := (0 <? bits) && (bits <=? 2139095040).

(** cmp.Or: the first argument that is not the zero value, else zero *)
Fixpoint cmp_Or (is_zero : Z -> bool) (vals : list Z) : Z :=
  match vals with
  | [] => 0
  | v :: vals' => if is_zero v then cmp_Or is_zero vals' else v
  end.

Definition cmp_Or_u32 : list Z -> Z := cmp_Or (fun v => v =? 0).
Definition cmp_Or_f32 : list Z -> Z := cmp_Or f32_is_zero.

Definition kv_set_if (c : bool) (k : string) (v : value)
  (kv : gmap string value) : gmap string value :=
  if c then <[k := v]> kv else kv.

Definition llama_KV (p : llama) (v : Vocabulary) (svs : list SpecialVocabulary)
  : result (gmap string value) :=
  let* kv := Parameters_KV v svs in
  let kv := <["general.architecture" := VString "llama"]> kv in
  let kv := <["general.name" := VString "llama"]> kv in
  let kv := <["llama.block_count" :=
                VUint32 (cmp_Or_u32 [NLayers p; NumHiddenLayers p; NLayer p])]> kv in
  let kv := <["llama.vocab_size" := VUint32 (VocabSize (l_Parameters p))]> kv in
  let contextLength := cmp_Or_u32 [MaxPositionEmbeddings p; NCtx p] in
  let kv := kv_set_if (0 <? contextLength)
              "llama.context_length" (VUint32 contextLength) kv in
  let embeddingLength := cmp_Or_u32 [HiddenSize p; NEmbd p] in
  let kv := kv_set_if (0 <? embeddingLength)
              "llama.embedding_length" (VUint32 (cmp_Or_u32 [HiddenSize p; NEmbd p])) kv in
  let feedForwardLength := cmp_Or_u32 [IntermediateSize p; NInner p] in
  let kv := kv_set_if (0 <? feedForwardLength)
              "llama.feed_forward_length"
              (VUint32 (cmp_Or_u32 [IntermediateSize p; NInner p])) kv in
  let headCount := cmp_Or_u32 [NumAttentionHeads p; NHead p] in
  let kv := kv_set_if (0 <? headCount)
              "llama.attention.head_count"
              (VUint32 (cmp_Or_u32 [NumAttentionHeads p; NHead p])) kv in
  let kv := kv_set_if (0 <? headCount)
              "llama.rope.dimension_count" (VUint32 (HiddenSize p / headCount)) kv in
  let kv := kv_set_if (0 <? NumKeyValueHeads p)
              "llama.attention.head_count_kv" (VUint32 (NumKeyValueHeads p)) kv in
  let kv := kv_set_if (f32_gt_zero (RopeTheta p))
              "llama.attention.rope_freq_base" (VFloat32 (RopeTheta p)) kv in
  let kv := kv_set_if (f32_gt_zero (RMSNormEPS p))
              "llama.attention.layer_norm_rms_epsilon" (VFloat32 (RMSNormEPS p)) kv in
  let layerNormEpsilon :=
    cmp_Or_f32 [LayerNormEPS p; LayerNormEpsilon p; NormEpsilon p] in
  let kv := kv_set_if (f32_gt_zero layerNormEpsilon)
              "llama.attention.layer_norm_epsilon" (VFloat32 layerNormEpsilon) kv in
  let kv := kv_set_if (0 <? NumLocalExperts p)
              "llama.attention.expert_count" (VUint32 (NumLocalExperts p)) kv in
  let kv := kv_set_if (0 <? NumExpertsPerToken p)
              "llama.attention.expert_used_count" (VUint32 (NumExpertsPerToken p)) kv in
  let kv := kv_set_if (0 <? length (Merges v))%nat
              "tokenizer.ggml.merges" (VStrings (Merges v)) kv in
  let kv := <["tokenizer.ggml.model" := VString "llama"]> kv in
  Ok kv.

(** The per-layer part of a tensor name, shared by the Llama and Gemma
    mappers: the innermost [switch n]. *)
Definition blockTensorName (n : string) : option string :=
  if String.eqb n "input_layernorm" then Some "attn_norm"
  else if String.eqb n "self_attn.q_proj" then Some "attn_q"
  else if String.eqb n "self_attn.k_proj" then Some "attn_k"
  else if String.eqb n "self_attn.v_proj" then Some "attn_v"
  else if String.eqb n "self_attn.o_proj" then Some "attn_output"
  else if String.eqb n "mlp.gate_proj" then Some "ffn_gate"
  else if String.eqb n "mlp.down_proj" then Some "ffn_down"
  else if String.eqb n "mlp.up_proj" then Some "ffn_up"
  else if String.eqb n "post_attention_layernorm" then Some "ffn_norm"
  else None.

(** The [switch prefix] on the stem after its first dot-separated part; the
    same text in llama.tensorName and gemma.tensorName. *)
Definition modelTensorName (prefix n suffix : string) : result string :=
  if String.eqb prefix "model" then
    if String.eqb n "embed_tokens" then
      Ok (strings_Join (["token_embd"] ++ [suffix]) ".")
    else if String.eqb n "norm" then
      Ok (strings_Join (["output_norm"] ++ [suffix]) ".")
    else
      let '(prefix, n, ok) := strings_Cut n "." in
      if negb ok || negb (String.eqb prefix "layers")
      then Err (ErrInvalidTensorName n)
      else
        let '(layer, n, ok) := strings_Cut n "." in
        if negb ok then Err (ErrInvalidTensorName n)
        else
          match strconv_Atoi layer with
          | None => Err (ErrInvalidTensorName n)
          | Some _ =>
              match blockTensorName n with
              | Some part =>
                  Ok (strings_Join (["blk"; layer; part] ++ [suffix]) ".")
              | None => Err (ErrInvalidTensorName n)
              end
          end
  else Err (ErrInvalidTensorName n).

Definition llama_tensorName (n : string) : result string :=
  let '(n, suffix, ok) := cutLast n "." in
  if negb ok || negb (String.eqb suffix "weight")
  then Err (ErrInvalidTensorName n)
  else if String.eqb n "lm_head" then
    Ok (strings_Join (["output"] ++ [suffix]) ".")
  else
    let '(prefix, n, ok) := strings_Cut n "." in
    if negb ok then Err (ErrInvalidTensorName n)
    else modelTensorName prefix n suffix.

Definition outTensor (name : string) (t : inTensor) (r : repacker) : Tensor :=
  mkTensor name (in_Kind t) 0 (in_Shape t) (in_WriteTo t r).

Fixpoint llama_Tensors (p : llama) (ts : list inTensor) : list Tensor :=
  match ts with
  | [] => []
  | t :: ts' =>
      match llama_tensorName (in_Name t) with
      | Ok name =>
          let r := if strings_HasSuffix name "attn_q.weight"
                      || strings_HasSuffix name "attn_k.weight"
                   then LlamaRepack (NumAttentionHeads p) (NumKeyValueHeads p)
                   else NoRepacker in
          outTensor name t r :: llama_Tensors p ts'
      | _ => llama_Tensors p ts'
      end
  end.

(** ** Gemma adapter *)

Record gemma : Type := mkGemma {
  g_Parameters : Parameters;
  gm_MaxPositionEmbeddings : Z;
  gm_HiddenSize : Z;
  gm_HiddenLayers : Z;
  gm_IntermediateSize : Z;
  gm_NumAttentionHeads : Z;
  gm_NumKeyValueHeads : Z;
  gm_RMSNormEPS : Z;
  gm_HeadDim : Z
}.

Definition gemma_KV (p : gemma) (v : Vocabulary) (svs : list SpecialVocabulary)
  : result (gmap string value) :=
  let* kv := Parameters_KV v svs in
  let kv := <["general.architecture" := VString "gemma"]> kv in
  let kv := <["general.name" := VString "gemma"]> kv in
  let kv := <["gemma.context_length" := VUint32 (gm_MaxPositionEmbeddings p)]> kv in
  let kv := <["gemma.embedding_length" := VUint32 (gm_HiddenSize p)]> kv in
  let kv := <["gemma.block_count" := VUint32 (gm_HiddenLayers p)]> kv in
  let kv := <["gemma.feed_forward_length" := VUint32 (gm_IntermediateSize p)]> kv in
  let kv := <["gemma.attention.head_count" := VUint32 (gm_NumAttentionHeads p)]> kv in
  let kv := <["gemma.attention.head_count_kv" := VUint32 (gm_NumKeyValueHeads p)]> kv in
  let kv := <["gemma.attention.layer_norm_rms_epsilon" := VFloat32 (gm_RMSNormEPS p)]> kv in
  let kv := <["gemma.attention.key_length" := VUint32 (gm_HeadDim p)]> kv in
  let kv := <["gemma.attention.value_length" := VUint32 (gm_HeadDim p)]> kv in
  let kv := <["tokenizer.ggml.model" := VString "llama"]> kv in
  let kv := <["tokenizer.ggml.eot_token_id" := VUint32 107]> kv in
  let kv := <["tokenizer.ggml.middle_token_id" := VUint32 68]> kv in
  let kv := <["tokenizer.ggml.prefix_token_id" := VUint32 67]> kv in
  let kv := <["tokenizer.ggml.suffix_token_id" := VUint32 69]> kv in
  Ok kv.

Definition gemma_tensorName (n : string) : result string :=
  let '(n, suffix, ok) := cutLast n "." in
  if negb ok || negb (String.eqb suffix "weight")
  then Err (ErrInvalidTensorName n)
  else
    let '(prefix, n, ok) := strings_Cut n "." in
    if negb ok then Err (ErrInvalidTensorName n)
    else modelTensorName prefix n suffix.

Fixpoint gemma_Tensors (p : gemma) (ts : list inTensor) : list Tensor :=
  match ts with
  | [] => []
  | t :: ts' =>
      match gemma_tensorName (in_Name t) with
      | Ok name =>
          let r := if strings_HasSuffix name "_norm.weight"
                   then GemmaAddOne else NoRepacker in
          outTensor name t r :: gemma_Tensors p ts'
      | _ => gemma_Tensors p ts'
      end
  end.

(** ** Phi adapter (convert/convert_phi.go) *)

Record phi : Type := mkPhi { p_Parameters : Parameters }.

Definition phi_KV (p : phi) (v : Vocabulary) (svs : list SpecialVocabulary)
  : result (gmap string value) :=
  let* kv := Parameters_KV v svs in
  let kv := <["general.architecture" := VString "phi"]> kv in
  let kv := <["tokenizer.ggml.model" := VString "llama"]> kv in
  Ok kv.

Definition phi_Tensors (p : phi) (ts : list inTensor) : list Tensor :=
  let out : list Tensor := [] in
  out.

Definition phi_tensorName (name : string) : result string := Ok name.

(** ** Conversion driver (convert/convert.go)

    What the driver obtains from its collaborators on a source directory:
    config.json decoded as [Parameters] and, again, as the parameters of
    the selected adapter; glob results and the order in which the pattern
    map is ranged over; the SentencePiece parser and tokenizer.json with
    the range order of its vocabulary; the special vocabulary for a list
    of requested types; the tensor descriptors. *)

Record SourceDir : Type := mkSourceDir {
  src_Parameters : result Parameters;
  src_llama : result llama;
  src_gemma : result gemma;
  src_phi : result phi;
  src_glob : string -> result (list string);
  src_patterns_range : list (string * vocabParser);
  src_parseSentencePiece : result Vocabulary;
  src_tokenizer : result (tokenizer * list (string * Z));
  src_parseSpecialVocabulary : list string -> result (list SpecialVocabulary);
  src_parseTensors : result (list inTensor)
}.

Inductive Converter : Type :=
| ConvLlama (p : llama)
| ConvGemma (p : gemma)
| ConvPhi (p : phi).

Definition Converter_KV (c : Converter) (v : Vocabulary)
  (svs : list SpecialVocabulary) : result (gmap string value) :=
  match c with
  | ConvLlama p => llama_KV p v svs
  | ConvGemma p => gemma_KV p v svs
  | ConvPhi p => phi_KV p v svs
  end.

Definition Converter_Tensors (c : Converter) (ts : list inTensor) : list Tensor :=
  match c with
  | ConvLlama p => llama_Tensors p ts
  | ConvGemma p => gemma_Tensors p ts
  | ConvPhi p => phi_Tensors p ts
  end.

(** Every adapter embeds [Parameters] and inherits its SpecialTypes. *)
Definition Converter_SpecialTypes (c : Converter) : list string :=
  Parameters_SpecialTypes.

Definition parseVocabularyFromTokenizer (d : SourceDir) : result Vocabulary :=
  let* (bpe, vocab_range) := src_tokenizer d in
  Ok (vocabularyFromTokenizer bpe vocab_range).

Definition src_parseFn (d : SourceDir) (fn : vocabParser) : result Vocabulary :=
  match fn with
  | SentencePiece => src_parseSentencePiece d
  | TokenizerJSON => parseVocabularyFromTokenizer d
  end.

(** [switch p.Architectures[0]], then the decoding into the adapter *)
Definition selectConverter (d : SourceDir) (arch : string) : result Converter :=
  if String.eqb arch "LlamaForCausalLM" || String.eqb arch "MistralForCausalLM"
     || String.eqb arch "MixtralForCausalLM"
  then let* p := src_llama d in Ok (ConvLlama p)
  else if String.eqb arch "GemmaForCausalLM"
  then let* p := src_gemma d in Ok (ConvGemma p)
  else if String.eqb arch "PhiForCausalLM" || String.eqb arch "Phi3ForCausalLM"
  then let* p := src_phi d in Ok (ConvPhi p)
  else Err ErrUnsupportedArchitecture.

Definition Convert `{ElementSizes} (d : SourceDir) (ws : WriteSeeker)
  : result WriteSeeker :=
  let* p := src_Parameters d in
  match Architectures p with
  | [] => Err ErrUnknownArchitecture
  | arch :: _ =>
      let* c := selectConverter d arch in
      let* v := parseVocabulary (src_glob d) (src_parseFn d) (src_patterns_range d) in
      let* sv := src_parseSpecialVocabulary d (Converter_SpecialTypes c) in
      let v := padVocabulary p v in
      let* ts := src_parseTensors d in
      let* kv := Converter_KV c v sv in
      WriteGGUF ws kv (Converter_Tensors c ts)
  end.

(** * Specification-side definitions *)

(** ** Wire format *)

Definition encString (s : string) : list byte :=
  le_bytes 8 (zstrlen s) ++ bytes_of_string s.

Definition encTag (t : ggufType) : list byte := le_bytes 4 (ggufType_code t).

Definition encArray (t : ggufType) (s : list Z) : list byte :=
  encTag ggufTypeArray ++ encTag t ++ le_bytes 8 (zlen s)
  ++ flat_map (le_bytes 4) s.

(** The bytes of a metadata value, for the values the writer accepts. *)
Definition encValue (v : value) : option (list byte) :=
  match v with
  | VScalar (SNum Uint32 n) => Some (encTag ggufTypeUint32 ++ le_bytes 4 n)
  | VScalar (SNum Float32 n) => Some (encTag ggufTypeFloat32 ++ le_bytes 4 n)
  | VScalar (SBool b) =>
      Some (encTag ggufTypeBool ++ [byte_of_Z (if b then 1 else 0)])
  | VScalar (SString s) => Some (encTag ggufTypeString ++ encString s)
  | VInt32s l => Some (encArray ggufTypeInt32 l)
  | VUint32s l => Some (encArray ggufTypeUint32 l)
  | VFloat32s l => Some (encArray ggufTypeFloat32 l)
  | VStrings l =>
      Some (encTag ggufTypeArray ++ encTag ggufTypeString
            ++ le_bytes 8 (zlen l) ++ flat_map encString l)
  | _ => None
  end.

(** The runtime types ggufWriteKV has a case for. *)
Definition writable (v : value) : bool :=
  match v with
  | VScalar (SNum Uint32 _) | VScalar (SNum Float32 _)
  | VScalar (SBool _) | VScalar (SString _)
  | VInt32s _ | VUint32s _ | VFloat32s _ | VStrings _ => true
  | _ => false
  end.

Definition encKV (k : string) (v : value) : list byte :=
  encString k ++ default [] (encValue v).

Definition encTensorInfo (t : Tensor) : list byte :=
  encString (Name t) ++ le_bytes 4 (zlen (Shape t))
  ++ flat_map (le_bytes 8) (rev (Shape t))
  ++ le_bytes 4 (Kind t) ++ le_bytes 8 (Offset t).

(** The padding formula, and padding to the writer's fixed alignment. *)
Definition padTo (align n : Z) : Z := Z.rem (align - Z.rem n align) align.
Definition pad32 (n : Z) : Z := padTo 32 n.

Definition zeros (n : Z) : list byte := replicate (Z.to_nat n) x00.

(** The payload region written from absolute position [pos]. *)
Fixpoint encPayloads (pos : Z) (ts : list Tensor) : list byte :=
  match ts with
  | [] => []
  | t :: ts' =>
      let p := pos + zlen (Payload t) in
      Payload t ++ zeros (pad32 p) ++ encPayloads (p + pad32 p) ts'
  end.

(** The descriptors the writer emits: the tensors in the given order, each
    with the running total of the sizes before it as its offset. *)
Fixpoint offsetTensors `{ElementSizes} (s : Z) (ts : list Tensor) : list Tensor :=
  match ts with
  | [] => []
  | t :: ts' =>
      set_Offset t s :: offsetTensors (wrap64 (s + Tensor_Size (set_Offset t s))) ts'
  end.

Definition sortedKeys (kv : gmap string value) : list string :=
  slices_Sort (map fst (map_to_list kv)).

(** What the reader makes of a written value: scalars and strings come back
    as they are, every array comes back as a [[]any] of its elements. *)
Definition readBack (v : value) : value :=
  match v with
  | VInt32s l => VAnys (map (SNum Int32) l)
  | VUint32s l => VAnys (map (SNum Uint32) l)
  | VFloat32s l => VAnys (map (SNum Float32) l)
  | VStrings l => VAnys (map SString l)
  | _ => v
  end.

(** What the reader makes of a written descriptor. *)
Definition readBackTensor (t : Tensor) : Tensor :=
  mkTensor (Name t) (Kind t) (Offset t) (rev (Shape t)) [].

(** ** Ranges of the Go types *)

Definition u32 (n : Z) : Prop := 0 <= n < 2 ^ 32.
Definition i32 (n : Z) : Prop := - 2 ^ 31 <= n < 2 ^ 31.
Definition u64 (n : Z) : Prop := 0 <= n < 2 ^ 64.
Definition go_len (n : Z) : Prop := n < 2 ^ 63.

(** A value of the writer's supported subset, within the ranges of its type. *)
Definition wf_value (v : value) : Prop :=
  match v with
  | VScalar (SNum Uint32 n) => u32 n
  | VScalar (SNum Float32 n) => u32 n
  | VScalar (SBool _) => True
  | VScalar (SString s) => go_len (zstrlen s)
  | VInt32s l => go_len (zlen l) /\ Forall i32 l
  | VUint32s l => go_len (zlen l) /\ Forall u32 l
  | VFloat32s l => go_len (zlen l) /\ Forall u32 l
  | VStrings l => go_len (zlen l) /\ Forall (fun s => go_len (zstrlen s)) l
  | _ => False
  end.

Definition wf_kv (kv : gmap string value) : Prop :=
  forall k v, kv !! k = Some v -> go_len (zstrlen k) /\ wf_value v.

Definition wf_tensor (t : Tensor) : Prop :=
  go_len (zstrlen (Name t)) /\ u32 (Kind t) /\ u32 (zlen (Shape t))
  /\ Forall u64 (Shape t).

(** The distance the reader seeks for the payloads it skips, at alignment
    [align]. *)
Definition decode_span `{ElementSizes} (align : Z) (ts : list Tensor) : Z :=
  fold_right
    (fun t acc => Tensor_Size t + padTo align (Tensor_Size t) + acc) 0 ts.

(** The sum of [f] over a list. *)
Definition sumZ {A} (f : A -> Z) (l : list A) : Z :=
  fold_right (fun x acc => f x + acc) 0 l.

(** The container state after the header of a written file has been read. *)
Definition container3 (nt nkv : Z) : containerGGUF :=
  mkContainer LittleEndian 3 0 0 0 0 nt nkv.

(** An element-size table for worked examples: four bytes for every kind. *)
Definition four_bytes : ElementSizes := fun _ => 4.


(** A metadata map and a tensor list for worked examples. *)
Definition M_example : gmap string value :=
  <["general.alignment" := VUint32 64]>
  (<["tokenizer.ggml.token_type" := VInt32s [1; -2]]>
  (<["tokenizer.ggml.tokens" := VStrings ["x"; "yz"]]>
  (<["general.name" := VString "m"]>
  (<["flag" := VBool true]>
  (<["rope" := VFloat32 1065353216]> ∅))))).

Definition T_example : list Tensor :=
  [mkTensor "w2" 0 0 [2; 3] (le_bytes 24 0); mkTensor "w1" 1 0 [4] (le_bytes 16 5)].

(** A metadata map with two values the writer has no case for. *)
Definition M_improper : gmap string value :=
  <["a" := VUint32 1]>
  (<["b" := VScalar (SNum Uint64 5)]>
  (<["c" := VAnys [SBool true]]> ∅)).

(** A directory listing in which both tokenizer files exist, and parsers
    that tell which one ran. *)
Definition glob_both (pattern : string) : result (list string) :=
  if String.eqb pattern "tokenizer.model" then Ok ["d/tokenizer.model"]
  else if String.eqb pattern "tokenizer.json" then Ok ["d/tokenizer.json"]
  else Ok [].

Definition glob_none (pattern : string) : result (list string) := Ok [].

Definition parseFn_example (fn : vocabParser) : result Vocabulary :=
  match fn with
  | SentencePiece => Ok (mkVocabulary ["spm"] [0] [1] [])
  | TokenizerJSON => Ok (mkVocabulary ["bpe"] [0] [1] [])
  end.

(** The keys contributed by the base parameters. *)
Definition base_key (k : string) : Prop :=
  k = "general.file_type" \/ String.prefix "tokenizer.ggml." k = true.

(** A Llama configuration in which every hyperparameter is zero or absent. *)
Definition llama_zero : llama :=
  mkLlama (mkParameters ["LlamaForCausalLM"] 0)
          0 0 0 0 0 0 0 0 0 0 0 0 0 0 0 0 0 0 0.

Definition vocab_empty : Vocabulary := mkVocabulary [] [] [] [].

(** The name of the [i]-th token appended by the padding of the driver. *)
Definition dummy_token (i : nat) : string :=
  "<dummy" +:+ Sprintf_05d (Z.of_nat i) +:+ ">".

(** A Phi source directory for worked examples. *)
Definition dir_phi : SourceDir :=
  mkSourceDir
    (Ok (mkParameters ["Phi3ForCausalLM"] 3))
    (Err (ErrOther "not a llama config"))
    (Err (ErrOther "not a gemma config"))
    (Ok (mkPhi (mkParameters ["Phi3ForCausalLM"] 3)))
    glob_both
    patterns
    (Ok (mkVocabulary ["a"; "b"] [0; 0] [1; 1] []))
    (Ok (mkTokenizer [] ∅ [], []))
    (fun _ => Ok [])
    (Ok [mkInTensor "model.embed_tokens.weight" 0 [2; 2]
           (fun _ => le_bytes 16 0)]).

(** A version 1, little-endian model. *)
Definition gguf_v1 : gguf := newGGUF (mkContainer LittleEndian 1 0 0 0 0 0 0).

(** The model the reader builds from a file written from [kv] and [ts]. *)
Definition decoded (kv : gmap string value) (ts : list Tensor) `{ElementSizes}
  : gguf :=
  mkGGUF (container3 (zlen ts) (Z.of_nat (size kv)))
         (<["general.parameter_count" :=
              VUint64 (wrap64 (sumZ Tensor_parameters ts))]> (readBack <$> kv))
         (map readBackTensor (offsetTensors 0 (sortTensors ts)))
         (wrap64 (sumZ Tensor_parameters ts)).

(** What the key-value loop of the reader does with the entry of [kv] at
    key [k]. *)
Definition readKey (kv : gmap string value) (llm : gguf) (k : string) : gguf :=
  match kv !! k with
  | Some v => set_kv llm k (readBack v)
  | None => llm
  end.

(** A descriptor as the writer emits it: well-formed, with a uint64 offset. *)
Definition wf_info (t : Tensor) : Prop := wf_tensor t /\ u64 (Offset t).

Definition sum_parameters (ts : list Tensor) : Z :=
  fold_right (fun t acc => Tensor_parameters t + acc) 0 ts.

(** A stream positioned after [pre], with [rest] still to come. *)
Definition cursor (pre rest : list byte) : ReadSeeker :=
  mkRS (pre ++ rest) (zlen pre).

Definition str_lt (a b : string) : Prop := str_less a b = true.
Definition str_le (a b : string) : Prop := str_less b a = false.

(** The container a fresh little-endian reader starts from. *)
Definition container0 : containerGGUF := mkContainer LittleEndian 0 0 0 0 0 0 0.

(** The order an insertion sort by [less] establishes: no element is
    strictly less than one before it. *)
Definition sort_le {A} (less : A -> A -> bool) (a b : A) : Prop :=
  less b a = false.

Definition encEntry (kv : gmap string value) (k : string) : list byte :=
  match kv !! k with
  | Some v => encKV k v
  | None => []
  end.

(** The bytes of a file written from position 0. *)
Definition encFile `{ElementSizes} (kv : gmap string value) (ts : list Tensor)
  : list byte :=
  let head :=
    magic ++ le_bytes 4 3 ++ le_bytes 8 (zlen ts)
    ++ le_bytes 8 (Z.of_nat (size kv))
    ++ flat_map (encEntry kv) (sortedKeys kv)
    ++ flat_map encTensorInfo (offsetTensors 0 (sortTensors ts)) in
  head ++ zeros (pad32 (zlen head))
  ++ encPayloads (zlen head + pad32 (zlen head)) (sortTensors ts).

(** A model that reads little-endian data of a version other than 1. *)
Definition reads_le (llm : gguf) : Prop :=
  gguf_ByteOrder llm = LittleEndian /\ gguf_Version llm <> 1.

(** The bytes [WriteGGUF] appends to a sink that stands at position [base]. *)
Definition encFileAt `{ElementSizes} (base : Z) (kv : gmap string value)
  (ts : list Tensor) : list byte :=
  let head :=
    magic ++ le_bytes 4 3 ++ le_bytes 8 (zlen ts)
    ++ le_bytes 8 (Z.of_nat (size kv))
    ++ flat_map (encEntry kv) (sortedKeys kv)
    ++ flat_map encTensorInfo (offsetTensors 0 (sortTensors ts)) in
  head ++ zeros (pad32 (base + zlen head))
  ++ encPayloads (base + zlen head + pad32 (base + zlen head)) (sortTensors ts).

(** The length of the header and descriptor part of a file, and the
    position at which its tensor data region starts. *)
Definition headLen `{ElementSizes} (kv : gmap string value) (ts : list Tensor)
  : Z :=
  zlen (magic ++ le_bytes 4 3 ++ le_bytes 8 (zlen ts)
        ++ le_bytes 8 (Z.of_nat (size kv))
        ++ flat_map (encEntry kv) (sortedKeys kv)
        ++ flat_map encTensorInfo (offsetTensors 0 (sortTensors ts))).

Definition dataStart `{ElementSizes} (kv : gmap string value) (ts : list Tensor)
  : Z :=
  headLen kv ts + pad32 (headLen kv ts).

(** The room a payload takes in the data region: its bytes and its padding. *)
Definition paddedLen (t : Tensor) : Z :=
  zlen (Payload t) + pad32 (zlen (Payload t)).

(** The values of a numeric type, and their bytes in a byte order. *)
Definition in_range (T : numtype) (v : Z) : Prop :=
  if num_signed T
  then - 2 ^ (num_bits T - 1) <= v < 2 ^ (num_bits T - 1)
  else 0 <= v < 2 ^ num_bits T.

Definition bo_bytes (bo : ByteOrder) (n : nat) (v : Z) : list byte :=
  match bo with
  | LittleEndian => le_bytes n v
  | BigEndian => rev (le_bytes n v)
  end.

(** A map without an alignment entry, and tensors whose payloads have the
    declared sizes (at four bytes per element). *)
Definition M_aligned : gmap string value :=
  <["general.name" := VString "m"]> (<["n" := VUint32 7]> ∅).

Definition T_aligned : list Tensor :=
  [mkTensor "b" 0 0 [2; 3] (le_bytes 24 1); mkTensor "a" 0 0 [5] (le_bytes 20 2)].

(** * Facts about the primitives *)

Section Bytes.

Lemma Z_of_byte_range b : 0 <= Z_of_byte b < 256.
Proof.
  unfold Z_of_byte. pose proof (Byte.to_N_bounded b). lia.
Qed.

Lemma byte_of_Z_of_byte b : byte_of_Z (Z_of_byte b) = b.
Proof.
  unfold byte_of_Z. pose proof (Z_of_byte_range b) as Hb.
  rewrite Z.mod_small by lia. unfold Z_of_byte.
  rewrite N2Z.id. by rewrite Byte.of_to_N.
Qed.

Lemma Z_of_byte_of_Z z : Z_of_byte (byte_of_Z z) = z mod 256.
Proof.
  unfold byte_of_Z, Z_of_byte.
  pose proof (Z.mod_pos_bound z 256 ltac:(lia)) as Hz.
  destruct (Byte.of_N (Z.to_N (z mod 256))) as [b|] eqn:Hb.
  - apply Byte.to_of_N in Hb. rewrite Hb. lia.
  - apply Byte.of_N_None_iff in Hb. lia.
Qed.

Lemma length_le_bytes n v : length (le_bytes n v) = n.
Proof. revert v. induction n as [|n IH]; intros v; simpl; [done|]. by rewrite IH. Qed.

Lemma le_val_le_bytes n v : le_val (le_bytes n v) = v mod 2 ^ (8 * Z.of_nat n).
Proof.
  revert v. induction n as [|n IH]; intros v.
  - simpl. by rewrite Z.mod_1_r.
  - cbn [le_bytes le_val]. rewrite IH, Z_of_byte_of_Z, Z.mod_mod by lia.
    replace (8 * Z.of_nat (S n)) with (8 + 8 * Z.of_nat n) by lia.
    rewrite Z.pow_add_r by lia. change (2 ^ 8) with 256.
    rewrite Z.rem_mul_r by lia. lia.
Qed.

Lemma le_val_le_bytes_small n v :
  0 <= v < 2 ^ (8 * Z.of_nat n) -> le_val (le_bytes n v) = v.
Proof. intros. rewrite le_val_le_bytes. by apply Z.mod_small. Qed.

Lemma le_val_range bs : 0 <= le_val bs < 2 ^ (8 * zlen bs).
Proof.
  unfold zlen. induction bs as [|b bs IH]; simpl length.
  - simpl. lia.
  - cbn [le_val]. pose proof (Z_of_byte_range b).
    replace (8 * Z.of_nat (S (length bs))) with (8 + 8 * Z.of_nat (length bs)) by lia.
    rewrite Z.pow_add_r by lia. change (2 ^ 8) with 256. nia.
Qed.

Lemma le_bytes_le_val bs : le_bytes (length bs) (le_val bs) = bs.
Proof.
  induction bs as [|b bs IH]; [done|].
  cbn [length le_bytes le_val]. pose proof (Z_of_byte_range b).
  assert ((Z_of_byte b + 256 * le_val bs) mod 256 = Z_of_byte b) as Hm.
  { rewrite (Z.mul_comm 256), Z.mod_add by lia.
    apply Z.mod_small; lia. }
  assert ((Z_of_byte b + 256 * le_val bs) / 256 = le_val bs) as Hd.
  { rewrite (Z.mul_comm 256), Z.div_add by lia.
    rewrite Z.div_small by lia. lia. }
  rewrite Hm, Hd, IH. by rewrite byte_of_Z_of_byte.
Qed.

Lemma length_bytes_of_string s : length (bytes_of_string s) = String.length s.
Proof.
  unfold bytes_of_string, String.list_byte_of_string.
  rewrite length_map. induction s; simpl; [done|]. by f_equal.
Qed.

Lemma zlen_bytes_of_string s : zlen (bytes_of_string s) = zstrlen s.
Proof. unfold zlen, zstrlen. by rewrite length_bytes_of_string. Qed.

Lemma string_of_bytes_of_string s : string_of_bytes (bytes_of_string s) = s.
Proof. apply String.string_of_list_byte_of_string. Qed.

Lemma bytes_of_string_of_bytes bs : bytes_of_string (string_of_bytes bs) = bs.
Proof. apply String.list_byte_of_string_of_list_byte. Qed.

Lemma zlen_app {A} (l1 l2 : list A) : zlen (l1 ++ l2) = zlen l1 + zlen l2.
Proof. unfold zlen. rewrite length_app. lia. Qed.

Lemma zlen_nonneg {A} (l : list A) : 0 <= zlen l.
Proof. unfold zlen. lia. Qed.

Lemma zlen_le_bytes n v : zlen (le_bytes n v) = Z.of_nat n.
Proof. unfold zlen. by rewrite length_le_bytes. Qed.

End Bytes.

(** * Facts about sorting *)

Section SortFacts.
Context {A : Type} (less : A -> A -> bool).
Hypothesis less_asym : forall x y, less x y = true -> less y x = false.

Lemma bubble_Permutation x rp : bubble less x rp ≡ₚ x :: rp.
  Proof.
    induction rp as [|y rp IH]; simpl; [done|].
    destruct (less x y); [|done].
    rewrite IH. apply Permutation_swap.
  Qed.

Lemma bubble_HdRel x y rp :
    less x y = true -> HdRel (flip (sort_le less)) y rp ->
    HdRel (flip (sort_le less)) y (bubble less x rp).
  Proof.
    intros Hxy Hhd. destruct rp as [|z rp]; simpl.
    - constructor. unfold flip, sort_le. auto.
    - destruct (less x z).
      + constructor. by inversion Hhd.
      + constructor. unfold flip, sort_le. auto.
  Qed.

Lemma bubble_Sorted x rp :
    Sorted (flip (sort_le less)) rp -> Sorted (flip (sort_le less)) (bubble less x rp).
  Proof.
    induction 1 as [|y rp Hs IH Hhd]; simpl.
    - repeat constructor.
    - destruct (less x y) eqn:Hxy.
      + constructor; [done|]. by apply bubble_HdRel.
      + constructor; [by constructor|]. constructor. done.
  Qed.

Lemma insertion_loop_Permutation l rp :
    fold_left (fun rp x => bubble less x rp) l rp ≡ₚ l ++ rp.
  Proof.
    revert rp. induction l as [|x l IH]; intros rp; simpl; [done|].
    rewrite IH, bubble_Permutation. by rewrite Permutation_middle.
  Qed.

Lemma insertion_loop_Sorted l rp :
    Sorted (flip (sort_le less)) rp ->
    Sorted (flip (sort_le less)) (fold_left (fun rp x => bubble less x rp) l rp).
  Proof.
    revert rp. induction l as [|x l IH]; intros rp Hs; simpl; [done|].
    apply IH. by apply bubble_Sorted.
  Qed.

Lemma insertionSort_Permutation l : insertionSort less l ≡ₚ l.
  Proof.
    unfold insertionSort. rewrite rev_alt.
    change (rev_append ?l []) with (reverse l).
    rewrite reverse_Permutation, insertion_loop_Permutation.
    by rewrite app_nil_r.
  Qed.

Lemma insertionSort_Sorted l : Sorted (sort_le less) (insertionSort less l).
  Proof.
    unfold insertionSort. rewrite rev_alt.
    change (rev_append ?l []) with (reverse l).
    apply (Sorted_reverse (flip (sort_le less))).
    apply insertion_loop_Sorted. constructor.
  Qed.

Lemma insertionSort_length l : length (insertionSort less l) = length l.
  Proof. apply Permutation_length, insertionSort_Permutation. Qed.
End SortFacts.

Lemma str_less_asym x y : str_less x y = true -> str_less y x = false.
Proof.
  unfold str_less, String.ltb. rewrite (String.compare_antisym y x).
  by destruct (String.compare x y).
Qed.

Lemma str_le_String_le a b : str_le a b <-> String.le a b.
Proof.
  unfold str_le, str_less, String.le, String.leb, String.ltb.
  rewrite (String.compare_antisym b a).
  destruct (String.compare a b); simpl; naive_solver.
Qed.

Lemma str_lt_iff a b : str_lt a b <-> str_le a b /\ a <> b.
Proof.
  unfold str_lt, str_le, str_less, String.ltb.
  rewrite (String.compare_antisym b a).
  destruct (String.compare a b) eqn:Hc; simpl.
  - apply String.compare_eq_iff in Hc. naive_solver.
  - split; [|done]. intros _. split; [done|]. intros ->.
    assert (String.le b b) as Hr by done.
    unfold String.le, String.leb in Hr.
    rewrite (String.compare_antisym b b) in Hc.
    destruct (String.compare b b); done.
  - naive_solver.
Qed.

Global Instance str_le_trans : Transitive str_le.
Proof.
  intros a b c ?%str_le_String_le ?%str_le_String_le.
  apply str_le_String_le. by etrans.
Qed.

Global Instance str_le_antisym : AntiSymm (=) str_le.
Proof.
  intros a b ?%str_le_String_le ?%str_le_String_le.
  by apply (anti_symm String.le).
Qed.

Global Instance str_lt_trans : Transitive str_lt.
Proof.
  intros a b c [Hab Hne1]%str_lt_iff [Hbc Hne2]%str_lt_iff.
  apply str_lt_iff. split; [by etrans|].
  intros ->. apply Hne1. by apply (anti_symm str_le).
Qed.

(** The key order of the writer: ascending, without repetition. *)
Lemma sortedKeys_Permutation (kv : gmap string value) :
  sortedKeys kv ≡ₚ map fst (map_to_list kv).
Proof. apply insertionSort_Permutation. Qed.

Lemma sortedKeys_NoDup (kv : gmap string value) : NoDup (sortedKeys kv).
Proof.
  rewrite sortedKeys_Permutation. apply NoDup_fst_map_to_list.
Qed.

Lemma Sorted_le_NoDup_lt (l : list string) :
  Sorted str_le l -> NoDup l -> StronglySorted str_lt l.
Proof.
  intros Hs%Sorted_StronglySorted; [|apply _].
  induction Hs as [|x l Hs IH Hall]; intros Hnd; [constructor|].
  apply NoDup_cons in Hnd as [Hx Hnd].
  constructor; [by apply IH|].
  apply Forall_forall. intros y Hy. apply str_lt_iff.
  split; [by eapply Forall_forall in Hall|]. intros ->. done.
Qed.

Lemma sortedKeys_StronglySorted (kv : gmap string value) :
  StronglySorted str_lt (sortedKeys kv).
Proof.
  apply Sorted_le_NoDup_lt; [|apply sortedKeys_NoDup].
  apply (insertionSort_Sorted str_less), str_less_asym.
Qed.

Lemma elem_of_sortedKeys (kv : gmap string value) k :
  k ∈ sortedKeys kv <-> is_Some (kv !! k).
Proof.
  rewrite sortedKeys_Permutation.
  rewrite list_elem_of_fmap. split.
  - intros [[k' v] [-> Hin%elem_of_map_to_list]]. by exists v.
  - intros [v Hv]. exists (k, v). split; [done|]. by apply elem_of_map_to_list.
Qed.
(** * The writer, as a byte string *)

Section WriterFacts.
Context `{ElementSizes}.

Lemma ws_write_app a b ws : ws_write b (ws_write a ws) = ws_write (a ++ b) ws.
  Proof. unfold ws_write. simpl. by rewrite app_assoc. Qed.

Lemma ws_write_nil ws : ws_write [] ws = ws.
  Proof. destruct ws. unfold ws_write. simpl. by rewrite app_nil_r. Qed.

Lemma ws_pos_write bs ws : ws_pos (ws_write bs ws) = ws_pos ws + zlen bs.
  Proof. unfold ws_pos, ws_write. simpl. rewrite zlen_app. lia. Qed.

Lemma fold_write {A} (f : A -> list byte) l ws :
    fold_left (fun w e => ws_write (f e) w) l ws = ws_write (flat_map f l) ws.
  Proof.
    revert ws. induction l as [|x l IH]; intros ws; simpl.
    - by rewrite ws_write_nil.
    - by rewrite IH, ws_write_app.
  Qed.

Lemma writeGGUFArray_enc t s ws :
    writeGGUFArray t 4 s ws = ws_write (encArray t s) ws.
  Proof.
    unfold writeGGUFArray, encArray, encTag, binary_Write.
    rewrite (fold_write (le_bytes 4)). by rewrite ?ws_write_app, <- ?app_assoc.
  Qed.

Lemma fold_write_strings (l : list string) w :
    fold_left
      (fun w e => ws_write (bytes_of_string e) (binary_Write 8 (zstrlen e) w)) l w
    = ws_write (flat_map encString l) w.
  Proof.
    revert w. induction l as [|x l IH]; intros w; simpl.
    - by rewrite ws_write_nil.
    - unfold binary_Write, encString in *.
      by rewrite IH, !ws_write_app, <- ?app_assoc.
  Qed.

Lemma ggufWriteKV_enc ws k v :
    ggufWriteKV ws k (Some v) =
    match encValue v with
    | Some bs => Ok (ws_write (encString k ++ bs) ws)
    | None => Err (ErrImproperType k)
    end.
  Proof.
    unfold ggufWriteKV.
    destruct v as [[[] n|b|s]|l|l|l|l|l]; simpl; try done;
      rewrite ?writeGGUFArray_enc, ?fold_write_strings;
      unfold writeGGUF, writeGGUF_bool, writeGGUFString, binary_Write,
        binary_Write_bool, encTag, encString;
      by rewrite ?ws_write_app, <- ?app_assoc.
  Qed.

Lemma encValue_writable v : is_Some (encValue v) <-> writable v = true.
  Proof.
    destruct v as [[[] n|b|s]|l|l|l|l|l]; simpl; split; intros; try done;
      by eauto || by destruct H0.
  Qed.

Lemma rev_by_index (l : list Z) :
    map (fun i => nth (length l - i - 1) l 0) (seq 0 (length l)) = rev l.
  Proof.
    rewrite rev_alt. change (rev_append l []) with (reverse l).
    apply list_eq. intros i. rewrite list_lookup_fmap.
    destruct (decide (i < length l)%nat) as [Hi|Hi].
    - rewrite lookup_seq_lt by done. simpl.
      rewrite reverse_lookup by done. rewrite nth_lookup.
      replace (length l - i - 1)%nat with (length l - S i)%nat by lia.
      destruct (lookup_lt_is_Some_2 l (length l - S i)%nat ltac:(lia)) as [x ->].
      done.
    - rewrite lookup_seq_ge by lia. simpl. symmetry.
      apply lookup_ge_None. rewrite length_reverse. lia.
  Qed.

Lemma writeShape_enc shape ws :
    writeShape shape ws = ws_write (flat_map (le_bytes 8) (rev shape)) ws.
  Proof.
    unfold writeShape, binary_Write.
    rewrite (fold_write (fun i => le_bytes 8 (nth (length shape - i - 1) shape 0))).
    rewrite <- rev_by_index. f_equal.
    generalize (seq 0 (length shape)). intros l.
    induction l as [|i l IH]; [done|]. cbn [flat_map map]. by f_equal.
  Qed.

Lemma ggufWriteTensorInfo_enc ws t :
    ggufWriteTensorInfo ws t = ws_write (encTensorInfo t) ws.
  Proof.
    unfold ggufWriteTensorInfo, encTensorInfo, encString, binary_Write.
    rewrite writeShape_enc. by rewrite !ws_write_app, <- !app_assoc.
  Qed.

Lemma writeTensorInfos_enc s ts ws :
    writeTensorInfos s ts ws =
    ws_write (flat_map encTensorInfo (offsetTensors s ts)) ws.
  Proof.
    revert s ws. induction ts as [|t ts IH]; intros s ws; simpl.
    - by rewrite ws_write_nil.
    - by rewrite IH, ggufWriteTensorInfo_enc, ws_write_app.
  Qed.

Lemma pad32_range n : 0 <= pad32 n < 32.
  Proof.
    unfold pad32, padTo.
    pose proof (Z.rem_bound_abs n 32 ltac:(lia)).
    assert (0 < 32 - Z.rem n 32) by lia.
    pose proof (Z.rem_bound_pos (32 - Z.rem n 32) 32 ltac:(lia) ltac:(lia)). lia.
  Qed.

Lemma pad32_mod n : 0 <= n -> pad32 n = (32 - n mod 32) mod 32.
  Proof.
    intros Hn. unfold pad32, padTo.
    pose proof (Z.mod_pos_bound n 32 ltac:(lia)).
    rewrite (Z.rem_mod_nonneg n 32) by lia.
    by rewrite Z.rem_mod_nonneg by lia.
  Qed.

Lemma pad32_aligned n : 0 <= n -> (n + pad32 n) mod 32 = 0.
  Proof.
    intros Hn. rewrite pad32_mod by done.
    pose proof (Z.mod_pos_bound n 32 ltac:(lia)).
    destruct (decide (n mod 32 = 0)) as [E|E].
    - rewrite E. change ((32 - 0) mod 32) with 0. by rewrite Z.add_0_r.
    - rewrite (Z.mod_small (32 - n mod 32)) by lia.
      rewrite (Z.div_mod n 32) at 1 by lia.
      replace (32 * (n / 32) + n mod 32 + (32 - n mod 32))
        with ((n / 32 + 1) * 32) by lia.
      apply Z.mod_mul. lia.
  Qed.

Lemma ggufPadding_32 n : ggufPadding n 32 = Ok (pad32 n).
  Proof. done. Qed.

Lemma bytes_Repeat_zero_pad n : bytes_Repeat_zero (pad32 n) = Ok (zeros (pad32 n)).
  Proof.
    unfold bytes_Repeat_zero. pose proof (pad32_range n).
    destruct (Z.ltb_spec (pad32 n) 0); [lia|done].
  Qed.

Lemma zlen_zeros n : 0 <= n -> zlen (zeros n) = n.
  Proof. intros. unfold zlen, zeros. rewrite length_replicate. lia. Qed.

Lemma writeTensors_enc ts ws :
    writeTensors ts 32 ws = Ok (ws_write (encPayloads (ws_pos ws) ts) ws).
  Proof.
    revert ws. induction ts as [|t ts IH]; intros ws; simpl.
    - by rewrite ws_write_nil.
    - unfold ggufWriteTensor. rewrite ggufPadding_32. simpl.
      rewrite bytes_Repeat_zero_pad. simpl. rewrite IH. f_equal.
      rewrite !ws_write_app, !ws_pos_write, zlen_app.
      rewrite zlen_zeros by apply pad32_range.
      by rewrite <- ?app_assoc, Z.add_assoc.
  Qed.

Lemma writeKVs_enc (kv : gmap string value) keys ws :
    Forall (fun k => exists v, kv !! k = Some v /\ writable v = true) keys ->
    writeKVs kv keys ws = Ok (ws_write (flat_map (encEntry kv) keys) ws).
  Proof.
    intros Hall. revert ws.
    induction Hall as [|k keys (v & Hv & Hw) _ IH]; intros ws; simpl.
    - by rewrite ws_write_nil.
    - rewrite Hv, ggufWriteKV_enc. unfold encEntry at 1. rewrite Hv.
      unfold encKV. apply encValue_writable in Hw as [bs Hbs]. rewrite Hbs.
      simpl. by rewrite IH, ws_write_app.
  Qed.

  (** The first key, in writing order, whose value has no case in
      ggufWriteKV stops the loop. *)
Lemma writeKVs_improper (kv : gmap string value) keys1 k keys2 ws :
    Forall (fun k => exists v, kv !! k = Some v /\ writable v = true) keys1 ->
    (forall v, kv !! k = Some v -> writable v = false) ->
    writeKVs kv (keys1 ++ k :: keys2) ws = Err (ErrImproperType k).
  Proof.
    intros Hall Hk. revert ws.
    induction Hall as [|k1 keys1 (v & Hv & Hw) _ IH]; intros ws; simpl.
    - destruct (kv !! k) as [v|] eqn:Hv; [|done].
      rewrite ggufWriteKV_enc.
      destruct (encValue v) as [bs|] eqn:Hbs; [|done].
      assert (writable v = true) by (apply encValue_writable; eauto).
      rewrite Hk in H0; done.
    - rewrite Hv, ggufWriteKV_enc.
      apply encValue_writable in Hw as [bs ->]. simpl. apply IH.
  Qed.

Lemma WriteGGUF_enc (kv : gmap string value) ts :
    (forall k v, kv !! k = Some v -> writable v = true) ->
    WriteGGUF (mkWS 0 []) kv ts = Ok (mkWS 0 (encFile kv ts)).
  Proof.
    intros Hw. unfold WriteGGUF. cbv zeta.
    fold (sortedKeys kv).
    rewrite writeKVs_enc; cycle 1.
    { apply Forall_forall. intros k [v Hv]%elem_of_sortedKeys. eauto. }
    cbn [rbind]. rewrite writeTensorInfos_enc, ggufPadding_32.
    cbn [rbind]. rewrite bytes_Repeat_zero_pad. cbn [rbind].
    rewrite writeTensors_enc. f_equal.
    unfold binary_Write. rewrite !ws_write_app, !ws_pos_write.
    unfold ws_write, ws_pos. cbn [ws_base ws_out app].
    rewrite !Z.add_0_l.
    rewrite (zlen_app _ (zeros _)), zlen_zeros by apply pad32_range.
    unfold encFile. by rewrite <- ?app_assoc.
  Qed.
End WriterFacts.
(** * The reader on a stream that holds written data *)

Section ReaderFacts.
Context `{ElementSizes}.
Lemma rs_rest_cursor pre rest : rs_rest (cursor pre rest) = rest.
  Proof.
    unfold rs_rest, cursor, zlen. simpl. rewrite Nat2Z.id.
    by rewrite drop_app_length.
  Qed.

Lemma rs_advance_cursor pre x rest :
    rs_advance (zlen x) (cursor pre (x ++ rest)) = cursor (pre ++ x) rest.
  Proof.
    unfold rs_advance, cursor. simpl. by rewrite zlen_app, app_assoc.
  Qed.

Lemma io_ReadFull_cursor pre x rest :
    io_ReadFull (length x) (cursor pre (x ++ rest)) = Ok (x, cursor (pre ++ x) rest).
  Proof.
    unfold io_ReadFull. rewrite rs_rest_cursor, length_app.
    destruct (Nat.leb_spec (length x) (length x + length rest)); [|lia].
    by rewrite take_app_length, <- rs_advance_cursor.
  Qed.

Lemma io_CopyN_cursor pre x rest :
    io_CopyN (cursor pre (x ++ rest)) (zlen x) = Ok (x, cursor (pre ++ x) rest).
  Proof.
    unfold io_CopyN. rewrite rs_rest_cursor.
    pose proof (zlen_nonneg x). pose proof (zlen_nonneg rest).
    destruct (Z.ltb_spec (zlen x) 0); [lia|].
    rewrite zlen_app. destruct (Z.leb_spec (zlen x) (zlen x + zlen rest)); [|lia].
    unfold zlen at 1. rewrite Nat2Z.id, take_app_length.
    by rewrite rs_advance_cursor.
  Qed.

Lemma binary_Read_cursor n v pre rest :
    binary_Read n LittleEndian (cursor pre (le_bytes n v ++ rest))
    = Ok (v mod 2 ^ (8 * Z.of_nat n), cursor (pre ++ le_bytes n v) rest).
  Proof.
    unfold binary_Read.
    rewrite <- (length_le_bytes n v) at 1. rewrite io_ReadFull_cursor.
    simpl. by rewrite le_val_le_bytes.
  Qed.

Lemma readGGUF_cursor T llm v pre rest :
    reads_le llm ->
    num_interp T (v mod 2 ^ num_bits T) = v ->
    readGGUF T llm (cursor pre (le_bytes (num_size T) v ++ rest))
    = Ok (v, cursor (pre ++ le_bytes (num_size T) v) rest).
  Proof.
    intros [Hbo _] Hv. unfold readGGUF. rewrite Hbo, binary_Read_cursor.
    simpl. unfold num_bits in Hv. by rewrite Hv.
  Qed.

Lemma interp_u32 v : u32 v -> num_interp Uint32 (v mod 2 ^ num_bits Uint32) = v.
  Proof. intros Hv. unfold num_interp. simpl. apply Z.mod_small. apply Hv. Qed.

Lemma interp_f32 v : u32 v -> num_interp Float32 (v mod 2 ^ num_bits Float32) = v.
  Proof. intros Hv. unfold num_interp. simpl. apply Z.mod_small. apply Hv. Qed.

Lemma interp_u64 v : u64 v -> num_interp Uint64 (v mod 2 ^ num_bits Uint64) = v.
  Proof. intros Hv. unfold num_interp. simpl. apply Z.mod_small. apply Hv. Qed.

Lemma interp_i32 v : i32 v -> num_interp Int32 (v mod 2 ^ num_bits Int32) = v.
  Proof.
    intros [Hlo Hhi]. unfold num_interp, to_signed, num_bits. simpl num_signed.
    cbn [num_size]. change (8 * Z.of_nat 4) with 32. change (32 - 1) with 31.
    change (2 ^ 32) with 4294967296 in *. change (2 ^ 31) with 2147483648 in *.
    destruct (decide (0 <= v)) as [Hp|Hn].
    - rewrite Z.mod_small by lia.
      destruct (Z.ltb_spec v 2147483648); lia.
    - assert (v mod 4294967296 = v + 4294967296) as ->.
      { symmetry. apply (Z.mod_unique _ _ (-1)); lia. }
      destruct (Z.ltb_spec (v + 4294967296) 2147483648); lia.
  Qed.

Lemma readGGUF_u32 llm v pre rest :
    reads_le llm -> u32 v ->
    readGGUF Uint32 llm (cursor pre (le_bytes 4 v ++ rest))
    = Ok (v, cursor (pre ++ le_bytes 4 v) rest).
  Proof. intros. by apply (readGGUF_cursor Uint32), interp_u32. Qed.

Lemma readGGUF_u64 llm v pre rest :
    reads_le llm -> u64 v ->
    readGGUF Uint64 llm (cursor pre (le_bytes 8 v ++ rest))
    = Ok (v, cursor (pre ++ le_bytes 8 v) rest).
  Proof. intros. by apply (readGGUF_cursor Uint64), interp_u64. Qed.

Lemma int64_small n : 0 <= n < 2 ^ 63 -> int64_of_uint64 n = n.
  Proof.
    intros Hn. unfold int64_of_uint64, to_signed. change (64 - 1) with 63.
    destruct (Z.ltb_spec n (2 ^ 63)); lia.
  Qed.

Lemma zstrlen_nonneg s : 0 <= zstrlen s.
  Proof. unfold zstrlen. lia. Qed.

Lemma readGGUFString_cursor llm s pre rest :
    reads_le llm -> go_len (zstrlen s) ->
    readGGUFString llm (cursor pre (encString s ++ rest))
    = Ok (s, cursor (pre ++ encString s) rest).
  Proof.
    intros [Hbo Hv] Hs. unfold readGGUFString, encString.
    destruct (Z.eqb_spec (gguf_Version llm) 1); [done|].
    pose proof (zstrlen_nonneg s). unfold go_len in Hs.
    rewrite Hbo, <- app_assoc, binary_Read_cursor. cbn [rbind].
    change (8 * Z.of_nat 8) with 64.
    rewrite Z.mod_small by (change (2 ^ 64) with (2 * 2 ^ 63); lia).
    rewrite int64_small by lia.
    rewrite <- zlen_bytes_of_string, io_CopyN_cursor. cbn [rbind].
    by rewrite string_of_bytes_of_string, zlen_bytes_of_string, app_assoc.
  Qed.

Lemma readArrayLoop_nums rd T c llm l a pre rest :
    reads_le llm -> num_size T = 4%nat ->
    (forall rs, readArrayElem rd llm c rs = readNum T llm rs) ->
    Forall (fun v => num_interp T (v mod 2 ^ num_bits T) = v) l ->
    readArrayLoop rd llm c (length l) a (cursor pre (flat_map (le_bytes 4) l ++ rest))
    = Ok (a ++ map (SNum T) l, cursor (pre ++ flat_map (le_bytes 4) l) rest).
  Proof.
    intros Hle Hsz Hel Hall. revert a pre.
    induction Hall as [|v l Hv _ IH]; intros a pre.
    - simpl. by rewrite !app_nil_r.
    - cbn [length readArrayLoop flat_map map]. rewrite Hel. unfold readNum.
      rewrite <- app_assoc, <- Hsz, readGGUF_cursor by done.
      cbn [rbind]. rewrite Hsz, IH.
      by rewrite <- !app_assoc.
  Qed.

Lemma readArrayLoop_strings llm (l : list string) a pre rest :
    reads_le llm ->
    Forall (fun s => go_len (zstrlen s)) l ->
    readArrayLoop readGGUFString llm (ggufType_code ggufTypeString) (length l) a
      (cursor pre (flat_map encString l ++ rest))
    = Ok (a ++ map SString l, cursor (pre ++ flat_map encString l) rest).
  Proof.
    intros Hle Hall. revert a pre.
    induction Hall as [|v l Hv _ IH]; intros a pre.
    - simpl. by rewrite !app_nil_r.
    - cbn [length readArrayLoop flat_map map].
      unfold readArrayElem. cbn [ggufType_code ggufType_of_code]. unfold readStr.
      rewrite <- app_assoc, readGGUFString_cursor by done.
      cbn [rbind]. rewrite IH. by rewrite <- !app_assoc.
  Qed.

Lemma go_len_u64 n : 0 <= n -> go_len n -> u64 n.
  Proof.
    unfold go_len, u64. change (2 ^ 64) with (2 * 2 ^ 63). lia.
  Qed.

Lemma u32_code t : u32 (ggufType_code t).
  Proof. unfold u32. destruct t; simpl; lia. Qed.

  (** Reading an array header positions the element loop. *)
Lemma readGGUFArray_cursor llm t n body pre rest :
    reads_le llm -> 0 <= n -> go_len n ->
    readGGUFArray llm (cursor pre (encTag t ++ le_bytes 8 n ++ body ++ rest))
    = readArrayLoop readGGUFString llm (ggufType_code t) (Z.to_nat n) []
        (cursor (pre ++ encTag t ++ le_bytes 8 n) (body ++ rest)).
  Proof.
    intros Hle Hn Hlen. unfold readGGUFArray.
    destruct (Z.eqb_spec (gguf_Version llm) 1); [by destruct Hle|].
    unfold encTag. rewrite readGGUF_u32 by (done || apply u32_code).
    cbn [rbind]. rewrite readGGUF_u64 by (done || by apply go_len_u64).
    cbn [rbind]. by rewrite <- !app_assoc.
  Qed.

Lemma byte_of_bool (b : bool) :
    [byte_of_Z (if b then 1 else 0)] = le_bytes 1 (if b then 1 else 0).
  Proof. by destruct b. Qed.

  (** One value: the type tag, then the switch on it. *)
Lemma decodeValue_cursor llm v pre rest :
    reads_le llm -> wf_value v ->
    (let* (t, rs2) :=
       readGGUF Uint32 llm (cursor pre (default [] (encValue v) ++ rest)) in
     decodeValue llm t rs2)
    = Ok (readBack v, cursor (pre ++ default [] (encValue v)) rest).
  Proof.
    intros Hle Hwf.
    destruct v as [[[] n|b|s]|l|l|l|l|l]; cbn [wf_value] in Hwf; try done;
      cbn [encValue default from_option id readBack];
      unfold encArray, encTag; rewrite <- ?app_assoc;
      rewrite readGGUF_u32 by (done || apply u32_code); cbn [rbind];
      unfold decodeValue; cbn [ggufType_code ggufType_of_code];
      unfold asValue, readNum, readBool, readStr, readGGUF_bool.
    - rewrite readGGUF_u32 by done. cbn [rbind]. by rewrite <- !app_assoc.
    - rewrite (readGGUF_cursor Float32) by (done || by apply interp_f32).
      cbn [rbind]. by rewrite <- !app_assoc.
    - destruct Hle as [Hbo ?]. rewrite Hbo, byte_of_bool, binary_Read_cursor.
      cbn [rbind]. rewrite <- !app_assoc. by destruct b.
    - rewrite readGGUFString_cursor by done. cbn [rbind]. by rewrite <- !app_assoc.
    - destruct Hwf as [Hlen Hall].
      change (le_bytes 4 5) with (encTag ggufTypeInt32).
      rewrite readGGUFArray_cursor by (done || apply zlen_nonneg).
      unfold zlen at 1. rewrite Nat2Z.id.
      rewrite (readArrayLoop_nums _ Int32); try done.
      + cbn [rbind]. by rewrite <- !app_assoc.
      + eapply Forall_impl; [exact Hall|]. intros. by apply interp_i32.
    - destruct Hwf as [Hlen Hall].
      change (le_bytes 4 4) with (encTag ggufTypeUint32).
      rewrite readGGUFArray_cursor by (done || apply zlen_nonneg).
      unfold zlen at 1. rewrite Nat2Z.id.
      rewrite (readArrayLoop_nums _ Uint32); try done.
      + cbn [rbind]. by rewrite <- !app_assoc.
      + eapply Forall_impl; [exact Hall|]. intros. by apply interp_u32.
    - destruct Hwf as [Hlen Hall].
      change (le_bytes 4 6) with (encTag ggufTypeFloat32).
      rewrite readGGUFArray_cursor by (done || apply zlen_nonneg).
      unfold zlen at 1. rewrite Nat2Z.id.
      rewrite (readArrayLoop_nums _ Float32); try done.
      + cbn [rbind]. by rewrite <- !app_assoc.
      + eapply Forall_impl; [exact Hall|]. intros. by apply interp_f32.
    - destruct Hwf as [Hlen Hall].
      change (le_bytes 4 8) with (encTag ggufTypeString).
      rewrite readGGUFArray_cursor by (done || apply zlen_nonneg).
      unfold zlen at 1. rewrite Nat2Z.id.
      rewrite readArrayLoop_strings by done.
      cbn [rbind]. by rewrite <- !app_assoc.
  Qed.
End ReaderFacts.
(** * The decoding loops on written data *)

Section DecodeFacts.
Context `{ElementSizes}.

Lemma reads_le_set_kv llm k v : reads_le llm -> reads_le (set_kv llm k v).
  Proof. done. Qed.

Lemma reads_le_add_tensor llm t : reads_le llm -> reads_le (add_tensor llm t).
  Proof. done. Qed.

Lemma reads_le_readKey kv llm k : reads_le llm -> reads_le (readKey kv llm k).
  Proof. unfold readKey. by destruct (kv !! k). Qed.

Lemma decodeKVs_cursor (kv : gmap string value) keys llm pre rest :
    reads_le llm -> wf_kv kv ->
    Forall (fun k => is_Some (kv !! k)) keys ->
    decodeKVs (length keys) llm (cursor pre (flat_map (encEntry kv) keys ++ rest))
    = Ok (fold_left (readKey kv) keys llm,
          cursor (pre ++ flat_map (encEntry kv) keys) rest).
  Proof.
    intros Hle Hwf Hall. revert llm pre Hle.
    induction Hall as [|k keys [v Hv] _ IH]; intros llm pre Hle.
    - simpl. by rewrite app_nil_r.
    - cbn [length decodeKVs flat_map fold_left].
      destruct (Hwf k v Hv) as [Hk Hwv].
      unfold encEntry at 1 3, readKey at 2. rewrite Hv. unfold encKV.
      rewrite <- !app_assoc, readGGUFString_cursor by done. cbn [rbind].
      pose proof (decodeValue_cursor llm v (pre ++ encString k)
                    (flat_map (encEntry kv) keys ++ rest) Hle Hwv) as Hd.
      destruct (readGGUF Uint32 llm _) as [[t rs2]| |]; try done.
      cbn [rbind] in *. rewrite Hd. cbn [rbind].
      rewrite IH by done. by rewrite <- !app_assoc.
  Qed.

Lemma g_kv_fold_readKey (kv : gmap string value) keys llm k :
    g_kv (fold_left (readKey kv) keys llm) !! k =
    match (if decide (k ∈ keys) then kv !! k else None) with
    | Some v => Some (readBack v)
    | None => g_kv llm !! k
    end.
  Proof.
    revert llm. induction keys as [|k' keys IH]; intros llm.
    - simpl. destruct (decide (k ∈ [])) as [Hin|]; [|done]. by apply elem_of_nil in Hin.
    - cbn [fold_left]. rewrite IH.
      destruct (decide (k = k')) as [->|Hne].
      + destruct (decide (k' ∈ k' :: keys)) as [_|Hn]; [|by destruct Hn; left].
        unfold readKey.
        destruct (decide (k' ∈ keys)); destruct (kv !! k') as [v|]; try done.
        simpl. by rewrite lookup_insert_eq.
      + assert (g_kv (readKey kv llm k') !! k = g_kv llm !! k) as Hk.
        { unfold readKey. destruct (kv !! k'); [|done].
          simpl. by rewrite lookup_insert_ne. }
        destruct (decide (k ∈ keys)) as [Hin|Hnin].
        * destruct (decide (k ∈ k' :: keys)) as [_|Hn]; [|by destruct Hn; right].
          destruct (kv !! k); [done|]. done.
        * destruct (decide (k ∈ k' :: keys)) as [Hin'|_]; [|done].
          apply elem_of_cons in Hin' as [?|?]; done.
  Qed.

Lemma g_kv_readKeys (kv : gmap string value) c :
    g_kv (fold_left (readKey kv) (sortedKeys kv) (newGGUF c)) = readBack <$> kv.
  Proof.
    apply map_eq. intros k. rewrite g_kv_fold_readKey, lookup_fmap. simpl.
    destruct (decide (k ∈ sortedKeys kv)) as [Hin|Hnin].
    - apply elem_of_sortedKeys in Hin as [v Hv]. by rewrite Hv.
    - rewrite lookup_empty.
      destruct (kv !! k) as [v|] eqn:Hv; [|done].
      destruct Hnin. apply elem_of_sortedKeys. eauto.
  Qed.

Lemma g_tensors_fold_readKey kv keys llm :
    g_tensors (fold_left (readKey kv) keys llm) = g_tensors llm
    /\ g_parameters (fold_left (readKey kv) keys llm) = g_parameters llm
    /\ g_container (fold_left (readKey kv) keys llm) = g_container llm.
  Proof.
    revert llm. induction keys as [|k keys IH]; intros llm; [done|].
    cbn [fold_left]. destruct (IH (readKey kv llm k)) as (-> & -> & ->).
    unfold readKey. by destruct (kv !! k).
  Qed.

Lemma readShape_cursor llm l a pre rest :
    reads_le llm -> Forall u64 l ->
    readShape (length l) llm a (cursor pre (flat_map (le_bytes 8) l ++ rest))
    = Ok (a ++ l, cursor (pre ++ flat_map (le_bytes 8) l) rest).
  Proof.
    intros Hle Hall. revert a pre.
    induction Hall as [|d l Hd _ IH]; intros a pre.
    - simpl. by rewrite !app_nil_r.
    - cbn [length readShape flat_map].
      rewrite <- app_assoc, readGGUF_u64 by done. cbn [rbind].
      rewrite IH. by rewrite <- !app_assoc.
  Qed.

Lemma decodeTensors_cursor (ts : list Tensor) llm pre rest :
    reads_le llm -> Forall wf_info ts ->
    decodeTensors (length ts) llm (cursor pre (flat_map encTensorInfo ts ++ rest))
    = Ok (fold_left add_tensor (map readBackTensor ts) llm,
          cursor (pre ++ flat_map encTensorInfo ts) rest).
  Proof.
    intros Hle Hall. revert llm pre Hle.
    induction Hall as [|t ts [(Hn & Hk & Hd & Hs) Ho] _ IH]; intros llm pre Hle.
    - simpl. by rewrite app_nil_r.
    - cbn [length decodeTensors flat_map map fold_left].
      unfold encTensorInfo at 1 3.
      rewrite <- !app_assoc, readGGUFString_cursor by done. cbn [rbind].
      rewrite readGGUF_u32 by done. cbn [rbind].
      assert (Z.to_nat (zlen (Shape t)) = length (rev (Shape t))) as ->.
      { unfold zlen. by rewrite Nat2Z.id, length_rev. }
      rewrite readShape_cursor; [|done|].
      2:{ apply Forall_forall. intros x Hx. eapply Forall_forall in Hs; [exact Hs|].
          apply list_elem_of_In. apply list_elem_of_In in Hx. by apply in_rev. }
      cbn [rbind app]. rewrite readGGUF_u32 by done. cbn [rbind].
      rewrite readGGUF_u64 by done. cbn [rbind].
      rewrite IH by done. unfold readBackTensor at 2.
      by rewrite <- !app_assoc.
  Qed.
End DecodeFacts.
(** * Tensor sizes, parameter counts and seeks *)

Section SizeFacts.
Context `{ElementSizes}.

Lemma wrap64_range n : 0 <= wrap64 n < 2 ^ 64.
  Proof. unfold wrap64, wrap. apply Z.mod_pos_bound. lia. Qed.

Lemma fold_parameters l c :
    0 <= c < 2 ^ 64 ->
    fold_left (fun count n => wrap64 (count * n)) l c
    = (c * fold_right Z.mul 1 l) mod 2 ^ 64.
  Proof.
    revert c. induction l as [|x l IH]; intros c Hc; simpl.
    - rewrite Z.mul_1_r. symmetry. by apply Z.mod_small.
    - rewrite IH by apply wrap64_range. unfold wrap64, wrap.
      rewrite Z.mul_mod_idemp_l by lia. f_equal. lia.
  Qed.

Lemma Tensor_parameters_prod t :
    Tensor_parameters t = fold_right Z.mul 1 (Shape t) mod 2 ^ 64.
  Proof.
    unfold Tensor_parameters. rewrite fold_parameters by lia. f_equal. lia.
  Qed.

Lemma prod_app l1 l2 :
    fold_right Z.mul 1 (l1 ++ l2) = fold_right Z.mul 1 l1 * fold_right Z.mul 1 l2.
  Proof. induction l1 as [|x l1 IH]; simpl; [lia|]. rewrite IH. lia. Qed.

Lemma prod_rev l : fold_right Z.mul 1 (rev l) = fold_right Z.mul 1 l.
  Proof.
    induction l as [|x l IH]; [done|]. simpl. rewrite prod_app, IH. simpl. lia.
  Qed.

Lemma Tensor_parameters_readBack t :
    Tensor_parameters (readBackTensor t) = Tensor_parameters t.
  Proof. rewrite !Tensor_parameters_prod. simpl. by rewrite prod_rev. Qed.

Lemma Tensor_Size_readBack t : Tensor_Size (readBackTensor t) = Tensor_Size t.
  Proof. unfold Tensor_Size. by rewrite Tensor_parameters_readBack. Qed.

Lemma Tensor_Size_set_Offset t s : Tensor_Size (set_Offset t s) = Tensor_Size t.
  Proof. done. Qed.

Lemma Tensor_Size_range t : 0 <= Tensor_Size t < 2 ^ 64.
  Proof. apply wrap64_range. Qed.

Lemma sumZ_Permutation {A} (f : A -> Z) l1 l2 :
    l1 ≡ₚ l2 -> sumZ f l1 = sumZ f l2.
  Proof. induction 1; simpl; lia. Qed.

Lemma sumZ_map {A B} (f : B -> Z) (g : A -> B) l :
    sumZ f (map g l) = sumZ (fun x => f (g x)) l.
  Proof. induction l as [|x l IH]; simpl; [done|]. by rewrite IH. Qed.

Lemma sumZ_ext_in {A} (f g : A -> Z) l :
    Forall (fun x => f x = g x) l -> sumZ f l = sumZ g l.
  Proof. induction 1 as [|x l Hx _ IH]; simpl; [done|]. by rewrite Hx, IH. Qed.

Lemma sumZ_nonneg {A} (f : A -> Z) l :
    (forall x, 0 <= f x) -> 0 <= sumZ f l.
  Proof. intros Hf. induction l as [|x l IH]; simpl; [done|]. specialize (Hf x). lia. Qed.


Lemma sumZ_offsetTensors (f : Tensor -> Z) s ts :
    (forall t o, f (set_Offset t o) = f t) ->
    sumZ f (offsetTensors s ts) = sumZ f ts.
  Proof.
    intros Hf. revert s. induction ts as [|t ts IH]; intros s; simpl; [done|].
    by rewrite Hf, IH.
  Qed.

Lemma length_offsetTensors s ts : length (offsetTensors s ts) = length ts.
  Proof. revert s. induction ts as [|t ts IH]; intros s; simpl; [done|]. by rewrite IH. Qed.

Lemma sortTensors_Permutation ts : sortTensors ts ≡ₚ ts.
  Proof. apply insertionSort_Permutation. Qed.

Lemma sumZ_written (f : Tensor -> Z) ts :
    (forall t, f (readBackTensor t) = f t) ->
    (forall t o, f (set_Offset t o) = f t) ->
    sumZ f (map readBackTensor (offsetTensors 0 (sortTensors ts))) = sumZ f ts.
  Proof.
    intros Hr Ho. rewrite sumZ_map.
    rewrite (sumZ_ext_in _ f) by (apply Forall_forall; intros; apply Hr).
    rewrite sumZ_offsetTensors by done.
    apply sumZ_Permutation, sortTensors_Permutation.
  Qed.

Lemma wf_info_offsetTensors s ts :
    u64 s -> Forall wf_tensor ts -> Forall wf_info (offsetTensors s ts).
  Proof.
    intros Hs Hall. revert s Hs.
    induction Hall as [|t ts Ht _ IH]; intros s Hs; simpl; constructor.
    - done.
    - apply IH. apply wrap64_range.
  Qed.

Lemma g_fold_add_tensor l llm :
    0 <= g_parameters llm < 2 ^ 64 ->
    g_tensors (fold_left add_tensor l llm) = g_tensors llm ++ l
    /\ g_parameters (fold_left add_tensor l llm)
       = wrap64 (g_parameters llm + sumZ Tensor_parameters l)
    /\ g_kv (fold_left add_tensor l llm) = g_kv llm
    /\ g_container (fold_left add_tensor l llm) = g_container llm.
  Proof.
    revert llm. induction l as [|t l IH]; intros llm Hp.
    - simpl. rewrite app_nil_r, Z.add_0_r. unfold wrap64, wrap.
      by rewrite Z.mod_small.
    - cbn [fold_left]. destruct (IH (add_tensor llm t)) as (-> & -> & -> & ->).
      { apply wrap64_range. }
      simpl. rewrite <- app_assoc. repeat split; try done.
      unfold wrap64, wrap. rewrite Zplus_mod_idemp_l. f_equal. lia.
  Qed.

Lemma padTo_range a n : 0 < a -> 0 <= n -> 0 <= padTo a n < a.
  Proof.
    intros Ha Hn. unfold padTo.
    pose proof (Z.rem_bound_pos n a Hn Ha).
    apply Z.rem_bound_pos; lia.
  Qed.

Lemma ggufPadding_padTo n a : a <> 0 -> ggufPadding n a = Ok (padTo a n).
  Proof.
    intros Ha. unfold ggufPadding. by destruct (Z.eqb_spec a 0).
  Qed.

Lemma Seek_current_ok off rs :
    0 <= rs_pos rs + off < 2 ^ 63 ->
    Seek_current off rs = Ok (rs_pos rs + off, mkRS (rs_data rs) (rs_pos rs + off)).
  Proof.
    intros Hp. unfold Seek_current.
    destruct (Z.leb_spec 0 (rs_pos rs + off)); [|lia].
    destruct (Z.ltb_spec (rs_pos rs + off) (2 ^ 63)); [done|lia].
  Qed.

Lemma decode_span_cons a t ts :
    decode_span a (t :: ts)
    = Tensor_Size t + padTo a (Tensor_Size t) + decode_span a ts.
  Proof. done. Qed.

Lemma skipTensors_ok a ts rs :
    0 < a -> 0 <= rs_pos rs -> rs_pos rs + decode_span a ts < 2 ^ 63 ->
    exists rs', skipTensors a ts rs = Ok rs'
                /\ rs_pos rs' = rs_pos rs + decode_span a ts.
  Proof.
    intros Ha. revert rs. induction ts as [|t ts IH]; intros rs Hp Hb.
    - exists rs. simpl. split; [done|lia].
    - rewrite decode_span_cons in Hb.
      pose proof (Tensor_Size_range t) as [Hs0 Hs1].
      pose proof (padTo_range a _ Ha Hs0) as Hpad.
      assert (0 <= decode_span a ts) as Hnn.
      { apply (sumZ_nonneg (fun t => Tensor_Size t + padTo a (Tensor_Size t))).
        intros x. pose proof (Tensor_Size_range x) as [Hx0 Hx1].
        pose proof (padTo_range a _ Ha Hx0). lia. }
      cbn [skipTensors]. rewrite int64_small by lia.
      rewrite Seek_current_ok by lia. cbn [rbind].
      rewrite ggufPadding_padTo by lia. cbn [rbind].
      rewrite Seek_current_ok by (simpl; lia). cbn [rbind rs_data rs_pos].
      destruct (IH (mkRS (rs_data rs) (rs_pos rs + Tensor_Size t + padTo a (Tensor_Size t))))
        as (rs' & -> & Hrs'); [simpl; lia|simpl; lia|].
      exists rs'. split; [done|]. rewrite Hrs', decode_span_cons. simpl. lia.
  Qed.

Lemma kv_alignment_readBack (kv : gmap string value) p :
    kv_alignment (<["general.parameter_count" := p]> (readBack <$> kv))
    = kv_alignment kv.
  Proof.
    unfold kv_alignment. rewrite lookup_insert_ne by done.
    rewrite lookup_fmap. destruct (kv !! "general.alignment") as [v|]; [|done].
    destruct v as [[[] n|b|s]|l|l|l|l|l]; done.
  Qed.

Lemma kv_alignment_nonneg (kv : gmap string value) :
    wf_kv kv -> 0 <= kv_alignment kv.
  Proof.
    intros Hwf. unfold kv_alignment.
    destruct (kv !! "general.alignment") as [v|] eqn:Hv; [|lia].
    destruct (Hwf _ _ Hv) as [_ Hwv].
    destruct v as [[[] n|b|s]|l|l|l|l|l]; try lia. apply Hwv.
  Qed.
End SizeFacts.
(** * Decoding a written file *)

Section RoundTrip.
Context `{ElementSizes}.

Lemma length_sortedKeys (kv : gmap string value) :
    length (sortedKeys kv) = size kv.
  Proof.
    unfold sortedKeys, slices_Sort. rewrite insertionSort_length, length_map.
    apply length_map_to_list.
  Qed.

Lemma length_sortTensors ts : length (sortTensors ts) = length ts.
  Proof. apply insertionSort_length. Qed.

Lemma readCounts_cursor a b pre rest :
    readCounts 8 LittleEndian (cursor pre (le_bytes 8 a ++ le_bytes 8 b ++ rest))
    = Ok (a mod 2 ^ 64, b mod 2 ^ 64, cursor (pre ++ le_bytes 8 a ++ le_bytes 8 b) rest).
  Proof.
    unfold readCounts.
    replace (8 + 8)%nat with (length (le_bytes 8 a ++ le_bytes 8 b))
      by (by rewrite length_app, !length_le_bytes).
    rewrite app_assoc, io_ReadFull_cursor. cbn [rbind].
    rewrite take_app_length', drop_app_length' by (by rewrite length_le_bytes).
    cbn [bo_val]. by rewrite !le_val_le_bytes, <- ?app_assoc.
  Qed.

Lemma gguf_Decode_cursor (kv : gmap string value) ts pre tail :
    wf_kv kv -> Forall wf_tensor ts ->
    kv_alignment kv <> 0 ->
    zlen pre
    + zlen (flat_map (encEntry kv) (sortedKeys kv)
            ++ flat_map encTensorInfo (offsetTensors 0 (sortTensors ts)))
    + kv_alignment kv + decode_span (kv_alignment kv) ts < 2 ^ 63 ->
    exists rs,
      gguf_Decode (newGGUF (container3 (zlen ts) (Z.of_nat (size kv))))
        (cursor pre (flat_map (encEntry kv) (sortedKeys kv)
                     ++ flat_map encTensorInfo (offsetTensors 0 (sortTensors ts))
                     ++ tail))
      = Ok (decoded kv ts, rs).
  Proof.
    intros Hkv Hts Ha Hb.
    pose proof (kv_alignment_nonneg kv Hkv) as Ha0.
    set (c := container3 (zlen ts) (Z.of_nat (size kv))).
    set (infos := offsetTensors 0 (sortTensors ts)) in *.
    assert (reads_le (newGGUF c)) as Hle by done.
    unfold gguf_Decode.
    assert (Z.to_nat (numKV (newGGUF c)) = length (sortedKeys kv)) as ->.
    { rewrite length_sortedKeys. unfold numKV. simpl. lia. }
    rewrite decodeKVs_cursor; [|done|done|]; cycle 1.
    { apply Forall_forall. intros k Hk. by apply elem_of_sortedKeys. }
    cbn [rbind].
    set (llm1 := fold_left (readKey kv) (sortedKeys kv) (newGGUF c)).
    destruct (g_tensors_fold_readKey kv (sortedKeys kv) (newGGUF c))
      as (Ht1 & Hp1 & Hc1). fold llm1 in Ht1, Hp1, Hc1.
    assert (reads_le llm1) as Hle1.
    { unfold reads_le, gguf_ByteOrder, gguf_Version. by rewrite Hc1. }
    assert (Z.to_nat (numTensor llm1) = length infos) as ->.
    { unfold infos. rewrite length_offsetTensors, length_sortTensors.
      unfold numTensor, gguf_Version. rewrite Hc1. simpl. unfold zlen. lia. }
    rewrite decodeTensors_cursor; [|done|]; cycle 1.
    { apply wf_info_offsetTensors; [unfold u64; lia|].
      by rewrite sortTensors_Permutation. }
    cbn [rbind].
    set (llm2 := fold_left add_tensor (map readBackTensor infos) llm1).
    destruct (g_fold_add_tensor (map readBackTensor infos) llm1)
      as (Ht2 & Hp2 & Hk2 & Hc2).
    { rewrite Hp1. simpl. lia. }
    fold llm2 in Ht2, Hp2, Hk2, Hc2.
    rewrite Ht1 in Ht2. rewrite Hp1 in Hp2. rewrite Hc1 in Hc2.
    simpl in Ht2, Hp2, Hc2.
    assert (sumZ Tensor_parameters (map readBackTensor infos)
            = sumZ Tensor_parameters ts) as Hsum.
    { apply sumZ_written; [apply Tensor_parameters_readBack|done]. }
    rewrite Hsum in Hp2.
    assert (g_kv llm2 = readBack <$> kv) as Hkv2.
    { rewrite Hk2. apply g_kv_readKeys. }
    assert (set_kv llm2 "general.parameter_count" (VUint64 (g_parameters llm2))
            = decoded kv ts) as ->.
    { unfold set_kv, decoded. by rewrite Hc2, Hkv2, Ht2, Hp2. }
    assert (kv_alignment (g_kv (decoded kv ts)) = kv_alignment kv) as ->
      by apply kv_alignment_readBack.
    set (a := kv_alignment kv) in *.
    match goal with |- context [cursor ?p tail] => set (read := p) end.
    assert (zlen read + a + decode_span a ts < 2 ^ 63) as Hb'.
    { unfold read. rewrite !zlen_app. rewrite zlen_app in Hb. lia. }
    pose proof (zlen_nonneg read).
    assert (0 <= decode_span a ts) as Hnn.
    { apply (sumZ_nonneg (fun t => Tensor_Size t + padTo a (Tensor_Size t))).
      intros x. pose proof (Tensor_Size_range x) as [Hx0 Hx1].
      pose proof (padTo_range a _ ltac:(lia) Hx0). lia. }
    unfold cursor.
    rewrite Seek_current_ok by (cbn [rs_pos]; lia). cbn [rbind rs_pos rs_data].
    rewrite ggufPadding_padTo by done. cbn [rbind].
    rewrite Z.add_0_r.
    pose proof (padTo_range a (zlen read) ltac:(lia) ltac:(lia)) as Hpad.
    rewrite Seek_current_ok by (cbn [rs_pos]; lia). cbn [rbind rs_pos rs_data].
    assert (decode_span a (g_tensors (decoded kv ts)) = decode_span a ts) as Hspan.
    { apply (sumZ_written (fun t => Tensor_Size t + padTo a (Tensor_Size t))).
      - intros t. by rewrite Tensor_Size_readBack.
      - done. }
    edestruct (skipTensors_ok a (g_tensors (decoded kv ts))) as (rs' & -> & _);
      [| |rewrite Hspan|].
    - lia.
    - simpl. lia.
    - simpl. lia.
    - cbn [rbind]. by eexists.
  Qed.

Lemma magic_cursor rest : mkRS (magic ++ rest) 4 = cursor magic rest.
  Proof. done. Qed.

  (** Reading back a file written from position 0. *)
Lemma Decode_encFile (kv : gmap string value) ts :
    wf_kv kv -> Forall wf_tensor ts ->
    go_len (Z.of_nat (size kv)) -> go_len (zlen ts) ->
    kv_alignment kv <> 0 ->
    zlen (encFile kv ts) + kv_alignment kv + decode_span (kv_alignment kv) ts
      < 2 ^ 63 ->
    exists rs,
      containerGGUF_Decode container0 (mkRS (encFile kv ts) 4)
      = Ok (decoded kv ts, rs).
  Proof.
    intros Hkv Hts Hnk Hnt Ha Hb.
    set (body := flat_map (encEntry kv) (sortedKeys kv)
                 ++ flat_map encTensorInfo (offsetTensors 0 (sortTensors ts))).
    set (pre := magic ++ le_bytes 4 3 ++ le_bytes 8 (zlen ts)
                ++ le_bytes 8 (Z.of_nat (size kv))).
    assert (exists tail, encFile kv ts = pre ++ body ++ tail) as [tail Heq].
    { eexists. unfold encFile, pre, body. cbv zeta.
      rewrite <- !app_assoc. reflexivity. }
    rewrite Heq in *. clear Heq.
    rewrite !zlen_app in Hb. pose proof (zlen_nonneg tail).
    destruct (gguf_Decode_cursor kv ts pre tail Hkv Hts Ha) as [rs Hrs]; [fold body; lia|].
    exists rs. unfold containerGGUF_Decode.
    unfold pre. rewrite <- !app_assoc, magic_cursor.
    cbn [c_ByteOrder container0]. rewrite binary_Read_cursor. cbn [rbind].
    change (3 mod 2 ^ (8 * Z.of_nat 4)) with 3. cbv iota.
    rewrite readCounts_cursor. cbn [rbind].
    pose proof (zlen_nonneg ts). unfold go_len in *.
    rewrite !Z.mod_small by (change (2 ^ 64) with (2 * 2 ^ 63); lia).
    cbn [V1_NumTensor V1_NumKV V2_NumTensor V2_NumKV container0].
    fold (container3 (zlen ts) (Z.of_nat (size kv))).
    unfold pre in Hrs. unfold body. rewrite <- ?app_assoc. exact Hrs.
  Qed.
End RoundTrip.

(** * Round trips through the writer and the reader *)

Ltac solve_wf_value :=
  unfold VUint32, VUint64, VFloat32, VBool, VString;
  cbn [wf_value]; unfold wf_tensor, go_len, u32, i32, u64, zlen, zstrlen;
  cbn [length String.length Name Kind Shape Offset];
  repeat match goal with
         | |- _ /\ _ => split
         | |- Forall _ _ => constructor
         | |- True => exact I
         end;
  cbv beta; cbn [length String.length]; lia.

Ltac solve_wf_kv :=
  let k := fresh "k" in let v := fresh "v" in let Hkv := fresh "Hkv" in
  intros k v Hkv;
  repeat (lazymatch type of Hkv with
          | context [insert] =>
              apply lookup_insert_Some in Hkv as [[<- <-]|[_ Hkv]];
              [split; solve_wf_value|]
          end);
  by apply lookup_empty_Some in Hkv.

Section Claims_roundtrip.
Context `{ElementSizes}.

(** C1 (as amended).  For a metadata map whose values lie in the writer's
    supported subset, within the ranges of their Go types, [WriteGGUF]
    succeeds; if moreover a u32 entry under general.alignment is not zero and
    the file with the declared tensor sizes stays within int64 offsets, the
    reader accepts the file, and the decoded map holds the u64 sum of the
    shape products under general.parameter_count and, under every other key
    of the map, its value as the reader represents it: scalars and strings
    as written, every array as a [[]any] of its elements. *)
Theorem C1_metadata_roundtrip (M : gmap string value) (T : list Tensor) :
  wf_kv M -> Forall wf_tensor T ->
  go_len (Z.of_nat (size M)) -> go_len (zlen T) ->
  kv_alignment M <> 0 ->
  zlen (encFile M T) + kv_alignment M + decode_span (kv_alignment M) T < 2 ^ 63 ->
  exists ws g rs,
    WriteGGUF (mkWS 0 []) M T = Ok ws
    /\ containerGGUF_Decode container0 (mkRS (ws_out ws) 4) = Ok (g, rs)
    /\ g_kv g = <["general.parameter_count" := VUint64 (wrap64 (sum_parameters T))]>
                  (readBack <$> M)
    /\ (forall k x, k <> "general.parameter_count" ->
          M !! k = Some (VScalar x) -> g_kv g !! k = Some (VScalar x)).
Proof.
  intros Hkv Hts Hnk Hnt Ha Hb.
  destruct (Decode_encFile M T Hkv Hts Hnk Hnt Ha Hb) as [rs Hrs].
  exists (mkWS 0 (encFile M T)), (decoded M T), rs. split; [|split; [|split]].
  - apply WriteGGUF_enc. intros k v Hv. destruct (Hkv k v Hv) as [_ Hw].
    destruct v as [[[] n|b|s]|l|l|l|l|l]; done.
  - exact Hrs.
  - done.
  - intros k x Hne Hk. simpl. rewrite lookup_insert_ne by done.
    by rewrite lookup_fmap, Hk.
Qed.

End Claims_roundtrip.

Lemma wf_M_example : wf_kv M_example.
Proof. unfold M_example. solve_wf_kv. Qed.

Lemma wf_T_example : Forall wf_tensor T_example.
Proof. repeat constructor; solve_wf_value. Qed.

Lemma C1_witness :
  exists ws g rs,
    WriteGGUF (H := four_bytes) (mkWS 0 []) M_example T_example = Ok ws
    /\ containerGGUF_Decode (H := four_bytes) container0 (mkRS (ws_out ws) 4) = Ok (g, rs)
    /\ g_kv g = <["general.parameter_count" := VUint64 (wrap64 (sum_parameters T_example))]>
                  (readBack <$> M_example)
    /\ (forall k x, k <> "general.parameter_count" ->
          M_example !! k = Some (VScalar x) -> g_kv g !! k = Some (VScalar x)).
Proof.
  apply (C1_metadata_roundtrip (H := four_bytes) M_example T_example).
  - exact wf_M_example.
  - exact wf_T_example.
  - vm_compute. reflexivity.
  - vm_compute. reflexivity.
  - vm_compute. discriminate.
  - vm_compute. reflexivity.
Defined.

Lemma C1_counterexample :
  exists ws g rs,
    WriteGGUF (H := four_bytes) (mkWS 0 []) {["a" := VInt32s [1]]} [] = Ok ws
    /\ containerGGUF_Decode (H := four_bytes) container0 (mkRS (ws_out ws) 4) = Ok (g, rs)
    /\ g_kv g <> <["general.parameter_count" := VUint64 0]> {["a" := VInt32s [1]]}.
Proof.
  eexists _, _, _. split; [vm_compute; reflexivity|].
  split; [vm_compute; reflexivity|].
  intros Heq. apply (f_equal (fun m => m !! "a")) in Heq.
  vm_compute in Heq. discriminate.
Qed.

(** * Order of the written file, and the writer's type restriction *)

Section Claims_writer.
Context `{ElementSizes}.

Lemma writeKVs_ok_inv (kv : gmap string value) keys ws ws' :
    writeKVs kv keys ws = Ok ws' ->
    Forall (fun k => exists v, kv !! k = Some v /\ writable v = true) keys.
  Proof.
    revert ws. induction keys as [|k keys IH]; intros ws Hok; [constructor|].
    cbn [writeKVs] in Hok.
    destruct (kv !! k) as [v|] eqn:Hv; [|done].
    rewrite ggufWriteKV_enc in Hok.
    destruct (encValue v) as [bs|] eqn:Hbs; [|done].
    cbn [rbind] in Hok. constructor; [|by eapply IH].
    exists v. split; [done|]. apply encValue_writable. eauto.
  Qed.

Lemma WriteGGUF_ok_writable ws (kv : gmap string value) ts ws' :
    WriteGGUF ws kv ts = Ok ws' ->
    forall k v, kv !! k = Some v -> writable v = true.
  Proof.
    unfold WriteGGUF. cbv zeta. fold (sortedKeys kv). intros Hok k v Hv.
    destruct (writeKVs kv (sortedKeys kv) _) as [ws5| |] eqn:Hw; try done.
    apply writeKVs_ok_inv in Hw.
    eapply Forall_forall in Hw as (v' & Hv' & Hwr).
    - rewrite Hv in Hv'. by injection Hv' as <-.
    - apply elem_of_sortedKeys. eauto.
  Qed.

Lemma sumZ_app {A} (f : A -> Z) l1 l2 : sumZ f (l1 ++ l2) = sumZ f l1 + sumZ f l2.
  Proof. induction l1 as [|x l1 IH]; simpl; [done|]. rewrite IH. lia. Qed.

Lemma offsetTensors_lookup s ts i w :
    u64 s ->
    offsetTensors s ts !! i = Some w ->
    exists t, ts !! i = Some t
              /\ w = set_Offset t (wrap64 (s + sumZ Tensor_Size (take i ts))).
  Proof.
    revert s i. induction ts as [|t ts IH]; intros s i Hs Hw; [done|].
    destruct i as [|i]; cbn [offsetTensors] in Hw.
    - injection Hw as <-. exists t. split; [done|]. simpl.
      rewrite Z.add_0_r. unfold wrap64, wrap. by rewrite Z.mod_small.
    - apply IH in Hw as (t' & Ht' & ->); [|apply wrap64_range].
      exists t'. split; [done|]. f_equal. cbn [take sumZ fold_right].
      fold (sumZ Tensor_Size (take i ts)).
      unfold wrap64, wrap. rewrite Zplus_mod_idemp_l. f_equal.
      rewrite Tensor_Size_set_Offset. lia.
  Qed.



(** C4.  [ggufWriteKV] succeeds exactly on the values of run-time type
    uint32, float32, bool, string, []int32, []uint32, []float32 and
    []string; on a value of another type it returns the improper-type error
    that names the key; and [WriteGGUF] returns that error for the first key,
    in writing order, whose value is of such a type. *)
Theorem C4_write_type_restriction (ws : WriteSeeker) (M : gmap string value)
  (T : list Tensor) (k : string) (v : value) :
  is_ok (ggufWriteKV ws k (Some v)) = writable v
  /\ (writable v = false -> ggufWriteKV ws k (Some v) = Err (ErrImproperType k))
  /\ (M !! k = Some v -> writable v = false ->
      (forall k' v', M !! k' = Some v' -> str_lt k' k -> writable v' = true) ->
      WriteGGUF ws M T = Err (ErrImproperType k)).
Proof.
  assert (writable v = false -> ggufWriteKV ws k (Some v) = Err (ErrImproperType k))
    as Hbad.
  { intros Hw. rewrite ggufWriteKV_enc.
    destruct (encValue v) as [bs|] eqn:Hbs; [|done].
    assert (writable v = true) by (apply encValue_writable; eauto). congruence. }
  split; [|split; [exact Hbad|]].
  - destruct (writable v) eqn:Hw.
    + rewrite ggufWriteKV_enc. apply encValue_writable in Hw as [bs ->]. done.
    + by rewrite Hbad.
  - intros Hk Hw Hleast. unfold WriteGGUF. cbv zeta. fold (sortedKeys M).
    assert (k ∈ sortedKeys M) as Hin by (apply elem_of_sortedKeys; eauto).
    apply list_elem_of_split in Hin as (l1 & l2 & Heq).
    pose proof (sortedKeys_StronglySorted M) as Hs. rewrite Heq in Hs.
    rewrite Heq, writeKVs_improper; [done| |].
    + apply Forall_forall. intros k' Hk'.
      assert (is_Some (M !! k')) as [v' Hv'].
      { apply elem_of_sortedKeys. rewrite Heq. apply elem_of_app. by left. }
      exists v'. split; [done|]. apply (Hleast k' v' Hv').
      eapply (StronglySorted_app_1_elem_of str_lt l1 (k :: l2)); [done..|].
      by left.
    + intros v0 Hv0. rewrite Hk in Hv0. by injection Hv0 as <-.
Qed.
End Claims_writer.



Lemma C4_witness :
  M_improper !! "b" = Some (VScalar (SNum Uint64 5))
  /\ writable (VScalar (SNum Uint64 5)) = false
  /\ WriteGGUF (H := four_bytes) (mkWS 0 []) M_improper []
     = Err (ErrImproperType "b").
Proof.
  destruct (C4_write_type_restriction (H := four_bytes) (mkWS 0 []) M_improper []
              "b" (VScalar (SNum Uint64 5))) as (_ & _ & H3).
  split; [reflexivity|]. split; [reflexivity|].
  apply H3; [reflexivity|reflexivity|].
  intros k' v' Hk' Hlt. unfold M_improper in Hk'.
  repeat (apply lookup_insert_Some in Hk' as [[<- <-]|[_ Hk']]; [try done|]).
  by apply lookup_empty_Some in Hk'.
Defined.
(** * Special tokens, tokenizer probing, adapters and the driver *)

(** C5 (the code at the failing input).  [Key] has cases for bos, eos, pad
    and unk only: on an entry of logical type sep, which [SpecialTypes]
    requests, it panics, and so does [Parameters.KV] on a special vocabulary
    that holds such an entry. *)
Theorem C5_Key_panics_on_sep :
  In "sep" Parameters_SpecialTypes
  /\ SpecialVocabulary_Key (mkSV "sep" 3 "[SEP]" false)
     = Panic "unknown special vocabulary type"
  /\ Parameters_KV vocab_empty [mkSV "sep" 3 "[SEP]" false]
     = Panic "unknown special vocabulary type".
Proof. split; [|split]; [simpl; tauto|reflexivity|reflexivity]. Qed.

(** C6 (the code at the failing input).  In a directory that holds both
    tokenizer.model and tokenizer.json, when the range over the pattern map
    visits tokenizer.json first, [parseVocabulary] runs the tokenizer.json
    parser and not the SentencePiece one. *)
Theorem C6_json_probed_first :
  [("tokenizer.json", TokenizerJSON); ("tokenizer.model", SentencePiece)]
    ≡ₚ patterns
  /\ parseVocabulary glob_both parseFn_example
       [("tokenizer.json", TokenizerJSON); ("tokenizer.model", SentencePiece)]
     = parseFn_example TokenizerJSON
  /\ parseFn_example TokenizerJSON <> parseFn_example SentencePiece.
Proof.
  split; [apply Permutation_swap|]. split; [reflexivity|]. discriminate.
Qed.

Section Claims_adapters.
Context `{ElementSizes}.

Lemma prefix_append s x : String.prefix s (s +:+ x) = true.
  Proof.
    induction s as [|a s IH].
    - by destruct x.
    - change (String.prefix (String a s) (String a (s +:+ x)) = true).
      cbn [String.prefix]. destruct (ascii_dec a a); [exact IH|done].
  Qed.

Lemma specialKV_keys svs (kv kv' : gmap string value) :
    specialKV svs kv = Ok kv' ->
    (forall k, is_Some (kv !! k) -> base_key k) ->
    forall k, is_Some (kv' !! k) -> base_key k.
  Proof.
    revert kv. induction svs as [|sv svs IH]; intros kv Hok Hkeys.
    - injection Hok as <-. done.
    - cbn [specialKV] in Hok.
      destruct (SpecialVocabulary_Key sv) as [key| |]; try done.
      cbn [rbind] in Hok. eapply IH; [exact Hok|].
      intros k [v Hk].
      apply lookup_insert_Some in Hk as [[<- _]|[_ Hk]].
      { right. exact (prefix_append "tokenizer.ggml." ("add_" +:+ key +:+ "_token")). }
      apply lookup_insert_Some in Hk as [[<- _]|[_ Hk]].
      { right. exact (prefix_append "tokenizer.ggml." (key +:+ "_token_id")). }
      apply Hkeys. eauto.
  Qed.

Lemma Parameters_KV_keys v svs (kv : gmap string value) :
    Parameters_KV v svs = Ok kv ->
    forall k, is_Some (kv !! k) -> base_key k.
  Proof.
    unfold Parameters_KV. intros Hok. eapply specialKV_keys; [exact Hok|].
    intros k [x Hk].
    repeat (apply lookup_insert_Some in Hk as [[<- _]|[_ Hk]];
            [by (left + right)|]).
    by apply lookup_empty_Some in Hk.
  Qed.

Lemma lookup_kv_set_if_ne c k v (kv : gmap string value) k' :
    k <> k' -> kv_set_if c k v kv !! k' = kv !! k'.
  Proof. intros. unfold kv_set_if. destruct c; [by rewrite lookup_insert_ne|done]. Qed.

Lemma lookup_kv_set_if_false k v (kv : gmap string value) k' :
    kv_set_if false k v kv !! k' = kv !! k'.
  Proof. done. Qed.

Lemma not_base_key_None (kv : gmap string value) k :
    (forall k, is_Some (kv !! k) -> base_key k) -> ~ base_key k -> kv !! k = None.
  Proof.
    intros Hkeys Hk. destruct (kv !! k) eqn:E; [|done].
    destruct Hk. apply Hkeys. eauto.
  Qed.
End Claims_adapters.

Ltac llama_lookup :=
  repeat first
    [ rewrite lookup_insert_eq
    | rewrite lookup_insert_ne by done
    | rewrite lookup_kv_set_if_ne by done
    | rewrite lookup_kv_set_if_false ].

Ltac llama_absent Hkeys :=
  llama_lookup; apply (not_base_key_None _ _ Hkeys);
  intros [?|?]; done.

(** C7 (as amended).  In the metadata map of the Llama adapter, the keys
    llama.context_length, llama.embedding_length, llama.feed_forward_length,
    llama.attention.head_count (and with it llama.rope.dimension_count),
    llama.attention.head_count_kv, the rope base and epsilon keys and the
    expert-count keys are absent whenever every source parameter they are
    taken from is zero or absent; llama.block_count and llama.vocab_size are
    always present, with value zero when their source parameters are. *)
Theorem C7_llama_zero_keys (p : llama) (v : Vocabulary)
  (svs : list SpecialVocabulary) (kv : gmap string value) :
  llama_KV p v svs = Ok kv ->
  (MaxPositionEmbeddings p = 0 -> NCtx p = 0 ->
     kv !! "llama.context_length" = None)
  /\ (HiddenSize p = 0 -> NEmbd p = 0 -> kv !! "llama.embedding_length" = None)
  /\ (IntermediateSize p = 0 -> NInner p = 0 ->
        kv !! "llama.feed_forward_length" = None)
  /\ (NumAttentionHeads p = 0 -> NHead p = 0 ->
        kv !! "llama.attention.head_count" = None
        /\ kv !! "llama.rope.dimension_count" = None)
  /\ (NumKeyValueHeads p = 0 -> kv !! "llama.attention.head_count_kv" = None)
  /\ (f32_is_zero (RopeTheta p) = true ->
        kv !! "llama.attention.rope_freq_base" = None)
  /\ (f32_is_zero (RMSNormEPS p) = true ->
        kv !! "llama.attention.layer_norm_rms_epsilon" = None)
  /\ (f32_is_zero (LayerNormEPS p) = true ->
      f32_is_zero (LayerNormEpsilon p) = true ->
      f32_is_zero (NormEpsilon p) = true ->
        kv !! "llama.attention.layer_norm_epsilon" = None)
  /\ (NumLocalExperts p = 0 -> kv !! "llama.attention.expert_count" = None)
  /\ (NumExpertsPerToken p = 0 ->
        kv !! "llama.attention.expert_used_count" = None)
  /\ kv !! "llama.block_count"
     = Some (VUint32 (cmp_Or_u32 [NLayers p; NumHiddenLayers p; NLayer p]))
  /\ kv !! "llama.vocab_size" = Some (VUint32 (VocabSize (l_Parameters p))).
Proof.
  unfold llama_KV. intros Hok.
  destruct (Parameters_KV v svs) as [kv0| |] eqn:Hbase; try done.
  pose proof (Parameters_KV_keys _ _ _ Hbase) as Hkeys.
  cbn [rbind] in Hok. injection Hok as <-.
  assert (forall x, f32_is_zero x = true -> f32_gt_zero x = false) as Hz.
  { intros x Hx. unfold f32_is_zero, f32_gt_zero in *.
    apply orb_true_iff in Hx as [Hx|Hx]; apply Z.eqb_eq in Hx; by subst. }
  repeat apply conj.
  - intros -> ->. cbn [cmp_Or_u32 cmp_Or Z.eqb Z.ltb Z.compare].
    llama_absent Hkeys.
  - intros -> ->. cbn [cmp_Or_u32 cmp_Or Z.eqb Z.ltb Z.compare].
    llama_absent Hkeys.
  - intros -> ->. cbn [cmp_Or_u32 cmp_Or Z.eqb Z.ltb Z.compare].
    llama_absent Hkeys.
  - intros -> ->. cbn [cmp_Or_u32 cmp_Or Z.eqb Z.ltb Z.compare].
    split; llama_absent Hkeys.
  - intros ->. cbn [Z.ltb Z.compare]. llama_absent Hkeys.
  - intros Hx. rewrite (Hz _ Hx). llama_absent Hkeys.
  - intros Hx. rewrite (Hz _ Hx). llama_absent Hkeys.
  - intros H1 H2 H3. unfold cmp_Or_f32. cbn [cmp_Or]. rewrite H1, H2, H3.
    change (f32_gt_zero 0) with false. llama_absent Hkeys.
  - intros ->. cbn [Z.ltb Z.compare]. llama_absent Hkeys.
  - intros ->. cbn [Z.ltb Z.compare]. llama_absent Hkeys.
  - by llama_lookup.
  - by llama_lookup.
Qed.

Lemma C7_witness :
  exists kv,
    llama_KV llama_zero vocab_empty [] = Ok kv
    /\ kv !! "llama.context_length" = None
    /\ kv !! "llama.attention.layer_norm_epsilon" = None
    /\ kv !! "llama.vocab_size" = Some (VUint32 0).
Proof.
  eexists. split; [reflexivity|].
  edestruct (C7_llama_zero_keys llama_zero vocab_empty [])
    as (H1 & _ & _ & _ & _ & _ & _ & H8 & _ & _ & _ & H12); [reflexivity|].
  split; [by apply H1|]. split; [by apply H8|]. exact H12.
Defined.

Lemma C7_counterexample :
  exists kv,
    llama_KV llama_zero vocab_empty [] = Ok kv
    /\ NLayers llama_zero = 0 /\ NumHiddenLayers llama_zero = 0
    /\ NLayer llama_zero = 0
    /\ kv !! "llama.block_count" = Some (VUint32 0).
Proof. eexists. repeat split. Qed.
(** * Vocabulary padding, the Phi adapter, version 1 strings *)

Section Claims_driver.
Context `{ElementSizes}.

Lemma pad_loop (l : list nat) v :
    let v' :=
      fold_left
        (fun v i => mkVocabulary
                      (Tokens v ++ ["<dummy" +:+ Sprintf_05d (Z.of_nat i) +:+ ">"])
                      (Scores v ++ [float32_of_int (-1)])
                      (Types v ++ [tokenTypeUserDefined])
                      (Merges v)) l v in
    Tokens v' = Tokens v ++ map dummy_token l
    /\ Scores v' = Scores v ++ replicate (length l) 3212836864
    /\ Types v' = Types v ++ replicate (length l) tokenTypeUserDefined
    /\ Merges v' = Merges v.
  Proof.
    revert v. induction l as [|i l IH]; intros v; cbn [fold_left].
    - simpl. by rewrite !app_nil_r.
    - destruct (IH (mkVocabulary
                      (Tokens v ++ ["<dummy" +:+ Sprintf_05d (Z.of_nat i) +:+ ">"])
                      (Scores v ++ [float32_of_int (-1)])
                      (Types v ++ [tokenTypeUserDefined])
                      (Merges v))) as (-> & -> & -> & ->).
      cbn [Tokens Scores Types Merges map length replicate].
      by rewrite <- !app_assoc.
  Qed.

(** C8.  If the configured vocab_size exceeds the number of parsed tokens,
    the driver appends exactly vocab_size - len(tokens) entries, the i-th of
    them (from zero) named <dummy%05d> after i, with score -1 and type
    UserDefined, and otherwise it leaves the vocabulary as it is; a
    vocabulary whose three sequences were of one length keeps them so. *)
Theorem C8_vocabulary_padding (p : Parameters) (v : Vocabulary) :
  let v' := padVocabulary p v in
  let n := Z.to_nat (VocabSize p - zlen (Tokens v)) in
  (zlen (Tokens v) < VocabSize p ->
     Tokens v' = Tokens v ++ map dummy_token (seq 0 n)
     /\ Scores v' = Scores v ++ replicate n (float32_of_int (-1))
     /\ Types v' = Types v ++ replicate n tokenTypeUserDefined
     /\ Merges v' = Merges v
     /\ zlen (Tokens v') = VocabSize p)
  /\ (VocabSize p <= zlen (Tokens v) -> v' = v)
  /\ (length (Tokens v) = length (Scores v) ->
      length (Scores v) = length (Types v) ->
      length (Tokens v') = length (Scores v')
      /\ length (Scores v') = length (Types v')).
Proof.
  cbv zeta. unfold padVocabulary.
  set (n := Z.to_nat (VocabSize p - zlen (Tokens v))).
  destruct (pad_loop (seq 0 n) v) as (Ht & Hs & Hty & Hm). cbv zeta in *.
  rewrite length_seq in Hs, Hty.
  destruct (Z.ltb_spec (zlen (Tokens v)) (VocabSize p)) as [Hlt|Hge].
  - split; [|split].
    + intros _. repeat split; try done.
      rewrite Ht, zlen_app. unfold zlen at 2. rewrite length_map, length_seq.
      unfold n. lia.
    + lia.
    + intros H1 H2. rewrite Ht, Hs, Hty, !length_app, length_map, length_seq,
        !length_replicate. lia.
  - split; [lia|]. split; [done|]. done.
Qed.

Lemma WriteGGUF_layout ws (kv : gmap string value) ts ws' :
    WriteGGUF ws kv ts = Ok ws' ->
    exists body,
      ws_out ws' = ws_out ws ++ magic ++ le_bytes 4 3 ++ le_bytes 8 (zlen ts)
                   ++ le_bytes 8 (Z.of_nat (size kv)) ++ body.
  Proof.
    unfold WriteGGUF. cbv zeta. fold (sortedKeys kv). intros Hok.
    destruct (writeKVs kv (sortedKeys kv) _) as [ws5| |] eqn:Hw; try done.
    pose proof (writeKVs_ok_inv _ _ _ _ Hw) as Hall.
    rewrite (writeKVs_enc _ _ _ Hall) in Hw. injection Hw as <-.
    cbn [rbind] in Hok. rewrite writeTensorInfos_enc, ggufPadding_32 in Hok.
    cbn [rbind] in Hok. rewrite bytes_Repeat_zero_pad in Hok.
    cbn [rbind] in Hok. rewrite writeTensors_enc in Hok. injection Hok as <-.
    unfold binary_Write. rewrite !ws_write_app. unfold ws_write.
    cbn [ws_out]. eexists. rewrite <- !app_assoc. reflexivity.
  Qed.

(** C9.  The Tensors method of the Phi adapter returns the empty list for
    every input, so a conversion that selects the Phi adapter (PhiForCausalLM
    or Phi3ForCausalLM) and succeeds has written a file whose tensor count is
    zero. *)
Theorem C9_phi_no_tensors (p : phi) (ts : list inTensor) (d : SourceDir)
  (pr : Parameters) (arch : string) (rest : list string) (ws ws' : WriteSeeker) :
  phi_Tensors p ts = []
  /\ (src_Parameters d = Ok pr -> Architectures pr = arch :: rest ->
      arch = "PhiForCausalLM" \/ arch = "Phi3ForCausalLM" ->
      Convert d ws = Ok ws' ->
      exists kv body,
        WriteGGUF ws kv [] = Ok ws'
        /\ ws_out ws' = ws_out ws ++ magic ++ le_bytes 4 3 ++ le_bytes 8 0
                        ++ le_bytes 8 (Z.of_nat (size kv)) ++ body).
Proof.
  split; [done|]. intros Hp Harch Hphi Hok.
  unfold Convert in Hok. rewrite Hp in Hok. cbn [rbind] in Hok.
  rewrite Harch in Hok.
  assert (selectConverter d arch = let* p := src_phi d in Ok (ConvPhi p)) as Hsel.
  { by destruct Hphi as [-> | ->]. }
  rewrite Hsel in Hok.
  destruct (src_phi d) as [pp| |]; try done. cbn [rbind] in Hok.
  destruct (parseVocabulary _ _ _) as [v| |]; try done. cbn [rbind] in Hok.
  destruct (src_parseSpecialVocabulary d _) as [sv| |]; try done.
  cbn [rbind] in Hok.
  destruct (src_parseTensors d) as [ts0| |]; try done. cbn [rbind] in Hok.
  destruct (Converter_KV _ _ _) as [kv| |]; try done. cbn [rbind] in Hok.
  cbn [Converter_Tensors] in Hok. unfold phi_Tensors in Hok.
  destruct (WriteGGUF_layout _ _ _ _ Hok) as [body Hbody].
  exists kv, body. done.
Qed.

(** C10 (as amended).  [readGGUFV1String] cuts the last byte off the payload
    whatever its value.  For a recorded length from 1 to 2^63 - 1 it never
    panics: it returns the payload without its last byte when the stream
    holds that many bytes, and the end-of-file error when it does not.  For
    a recorded length of 0, and for one of 2^63 or more (negative as an
    int64, so that nothing is copied), the truncation index is -1 and the
    out-of-range panic is reached. *)
Theorem C10_v1_string (llm : gguf) (rs rs1 : ReadSeeker) (len : Z) :
  binary_Read 8 (gguf_ByteOrder llm) rs = Ok (len, rs1) ->
  (1 <= len < 2 ^ 63 ->
     (len <= zlen (rs_rest rs1) ->
        readGGUFV1String llm rs
        = Ok (string_of_bytes (take (Z.to_nat (len - 1)) (rs_rest rs1)),
              rs_advance len rs1))
     /\ (zlen (rs_rest rs1) < len -> readGGUFV1String llm rs = Err ErrEOF))
  /\ (len = 0 \/ 2 ^ 63 <= len < 2 ^ 64 ->
        readGGUFV1String llm rs = Panic "bytes.Buffer: truncation out of range").
Proof.
  intros Hread. unfold readGGUFV1String. rewrite Hread. cbn [rbind].
  split.
  - intros Hlen. rewrite int64_small by lia. unfold io_CopyN.
    destruct (Z.ltb_spec len 0); [lia|]. split.
    + intros Hle. destruct (Z.leb_spec len (zlen (rs_rest rs1))); [|lia].
      cbn [rbind].
      assert (zlen (take (Z.to_nat len) (rs_rest rs1)) = len) as Hl.
      { unfold zlen in *. rewrite length_take. lia. }
      rewrite Hl. unfold Buffer_Truncate.
      destruct (Z.eqb_spec (len - 1) 0) as [E|E].
      * cbn [rbind]. rewrite E. done.
      * rewrite Hl.
        destruct (Z.ltb_spec (len - 1) 0); [lia|].
        destruct (Z.ltb_spec len (len - 1)); [lia|].
        cbn [orb rbind]. rewrite take_take.
        by replace (Z.to_nat (len - 1) `min` Z.to_nat len)%nat
          with (Z.to_nat (len - 1)) by lia.
    + intros Hgt. destruct (Z.leb_spec len (zlen (rs_rest rs1))); [lia|done].
  - intros Hlen.
    assert (int64_of_uint64 len = 0 \/ int64_of_uint64 len < 0) as Hneg.
    { unfold int64_of_uint64, to_signed. change (64 - 1) with 63.
      destruct Hlen as [->|Hlen]; [by left|].
      destruct (Z.ltb_spec len (2 ^ 63)); [lia|]. right.
      change (2 ^ 64) with (2 * 2 ^ 63) in *. lia. }
    unfold io_CopyN.
    destruct Hneg as [-> | Hneg].
    + cbn [Z.ltb Z.compare]. pose proof (zlen_nonneg (rs_rest rs1)).
      destruct (Z.leb_spec 0 (zlen (rs_rest rs1))); [|lia].
      cbn [rbind]. by rewrite take_0.
    + destruct (Z.ltb_spec (int64_of_uint64 len) 0); [|lia]. done.
Qed.
End Claims_driver.

Lemma C8_witness :
  Tokens (padVocabulary (mkParameters [] 4) (mkVocabulary ["a"; "b"] [0; 0] [1; 1] []))
  = ["a"; "b"; "<dummy00000>"; "<dummy00001>"]
  /\ length (Scores (padVocabulary (mkParameters [] 4)
                       (mkVocabulary ["a"; "b"] [0; 0] [1; 1] [])))
     = length (Types (padVocabulary (mkParameters [] 4)
                        (mkVocabulary ["a"; "b"] [0; 0] [1; 1] []))).
Proof.
  destruct (C8_vocabulary_padding (mkParameters [] 4)
              (mkVocabulary ["a"; "b"] [0; 0] [1; 1] [])) as (H1 & _ & H3).
  split.
  - destruct H1 as (Ht & _); [reflexivity|]. rewrite Ht. reflexivity.
  - apply H3; reflexivity.
Defined.

Lemma C9_witness :
  exists ws' kv body,
    Convert (H := four_bytes) dir_phi (mkWS 0 []) = Ok ws'
    /\ WriteGGUF (H := four_bytes) (mkWS 0 []) kv [] = Ok ws'
    /\ ws_out ws' = ws_out (mkWS 0 []) ++ magic ++ le_bytes 4 3 ++ le_bytes 8 0
                    ++ le_bytes 8 (Z.of_nat (size kv)) ++ body.
Proof.
  eexists. 
  edestruct (C9_phi_no_tensors (H := four_bytes)
               (mkPhi (mkParameters ["Phi3ForCausalLM"] 3)) []
               dir_phi (mkParameters ["Phi3ForCausalLM"] 3)
               "Phi3ForCausalLM" [] (mkWS 0 []))
    as (_ & Hc).
  destruct Hc as (kv & body & Hw & Hb);
    [reflexivity|reflexivity|by right|vm_compute; reflexivity|].
  exists kv, body. split; [vm_compute; reflexivity|]. split; [exact Hw|exact Hb].
Defined.

Lemma C10_witness :
  readGGUFV1String gguf_v1
    (mkRS (le_bytes 8 3 ++ bytes_of_string "hi!" ++ bytes_of_string "rest") 0)
  = Ok ("hi", mkRS (le_bytes 8 3 ++ bytes_of_string "hi!" ++ bytes_of_string "rest") 11).
Proof.
  edestruct (C10_v1_string gguf_v1
               (mkRS (le_bytes 8 3 ++ bytes_of_string "hi!" ++ bytes_of_string "rest") 0))
    as (H1 & _); [reflexivity|].
  destruct H1 as (H1 & _); [vm_compute; split; [discriminate|reflexivity]|].
  rewrite H1; [reflexivity|vm_compute; discriminate].
Defined.

Lemma C10_counterexample :
  binary_Read 8 LittleEndian (mkRS (le_bytes 8 (2 ^ 63)) 0)
  = Ok (2 ^ 63, mkRS (le_bytes 8 (2 ^ 63)) 8)
  /\ 1 <= 2 ^ 63
  /\ readGGUFV1String gguf_v1 (mkRS (le_bytes 8 (2 ^ 63)) 0)
     = Panic "bytes.Buffer: truncation out of range".
Proof. split; [reflexivity|]. split; [done|reflexivity]. Qed.
(** * Further properties of the container codec *)

Section Codec_layout.
Context `{ElementSizes}.

Lemma padTo_aligned a n : 0 < a -> 0 <= n -> (n + padTo a n) mod a = 0.
Proof.
  intros Ha Hn. unfold padTo.
  pose proof (Z.mod_pos_bound n a Ha).
  rewrite (Z.rem_mod_nonneg n a) by lia.
  rewrite Z.rem_mod_nonneg by lia.
  destruct (decide (n mod a = 0)) as [E|E].
  - rewrite E, Z.sub_0_r, Z.mod_same, Z.add_0_r by lia. done.
  - rewrite (Z.mod_small (a - n mod a)) by lia.
    rewrite (Z.div_mod n a) at 1 by lia.
    replace (a * (n / a) + n mod a + (a - n mod a)) with ((n / a + 1) * a) by lia.
    apply Z.mod_mul. lia.
Qed.

Lemma padTo_zero a n : 0 < a -> 0 <= n -> n mod a = 0 -> padTo a n = 0.
Proof.
  intros Ha Hn E. unfold padTo.
  rewrite (Z.rem_mod_nonneg n a), E, Z.sub_0_r by lia.
  rewrite Z.rem_mod_nonneg by lia. apply Z.mod_same. lia.
Qed.

(** X1.  The padding formula: for a non-negative offset and a positive
    alignment, [ggufPadding] returns a padding in [0, align) that brings the
    offset to a multiple of the alignment, and it is zero on an offset that
    is aligned already. *)
Theorem X1_padding_formula (offset align : Z) :
  0 <= offset -> 0 < align ->
  exists p, ggufPadding offset align = Ok p
            /\ 0 <= p < align
            /\ (offset + p) mod align = 0
            /\ (offset mod align = 0 -> p = 0).
Proof.
  intros Ho Ha. exists (padTo align offset).
  split; [apply ggufPadding_padTo; lia|].
  split; [by apply padTo_range|].
  split; [by apply padTo_aligned|]. by apply padTo_zero.
Qed.

Lemma pad32_shift x n :
  0 <= x -> 0 <= n -> x mod 32 = 0 -> pad32 (x + n) = pad32 n.
Proof.
  intros Hx Hn E. rewrite !pad32_mod by lia.
  rewrite <- Zplus_mod_idemp_l, E. done.
Qed.

Lemma WriteGGUF_encAt ws (kv : gmap string value) ts :
  (forall k v, kv !! k = Some v -> writable v = true) ->
  WriteGGUF ws kv ts = Ok (ws_write (encFileAt (ws_pos ws) kv ts) ws).
Proof.
  intros Hw. unfold WriteGGUF. cbv zeta.
  fold (sortedKeys kv).
  rewrite writeKVs_enc; cycle 1.
  { apply Forall_forall. intros k [v Hv]%elem_of_sortedKeys. eauto. }
  cbn [rbind]. rewrite writeTensorInfos_enc, ggufPadding_32.
  cbn [rbind]. rewrite bytes_Repeat_zero_pad. cbn [rbind].
  rewrite writeTensors_enc. f_equal.
  unfold binary_Write. rewrite !ws_write_app, !ws_pos_write.
  rewrite (zlen_app _ (zeros _)), zlen_zeros by apply pad32_range.
  unfold encFileAt. rewrite <- ?app_assoc. rewrite Z.add_assoc. done.
Qed.

Lemma encPayloads_aligned pos ts :
  0 <= pos -> pos mod 32 = 0 ->
  (pos + zlen (encPayloads pos ts)) mod 32 = 0
  /\ zlen (encPayloads pos ts) = sumZ paddedLen ts.
Proof.
  revert pos. induction ts as [|t ts IH]; intros pos Hp E.
  - simpl. by rewrite Z.add_0_r.
  - cbn [encPayloads sumZ fold_right]. fold (sumZ paddedLen ts).
    pose proof (zlen_nonneg (Payload t)) as Hl.
    pose proof (pad32_range (pos + zlen (Payload t))) as Hpad.
    destruct (IH (pos + zlen (Payload t) + pad32 (pos + zlen (Payload t))))
      as [IH1 IH2]; [lia|by apply pad32_aligned; lia|].
    rewrite !zlen_app, zlen_zeros, IH2 by lia.
    rewrite IH2 in IH1.
    rewrite (pad32_shift pos) in * by lia.
    split; [|unfold paddedLen at 2; lia].
    rewrite <- IH1. f_equal. lia.
Qed.

Lemma encPayloads_app pos l1 l2 :
  0 <= pos -> pos mod 32 = 0 ->
  encPayloads pos (l1 ++ l2)
  = encPayloads pos l1 ++ encPayloads (pos + sumZ paddedLen l1) l2.
Proof.
  revert pos. induction l1 as [|t l1 IH]; intros pos Hp E.
  - simpl. by rewrite Z.add_0_r.
  - cbn [app encPayloads sumZ fold_right]. fold (sumZ paddedLen l1).
    pose proof (zlen_nonneg (Payload t)) as Hl.
    pose proof (pad32_range (pos + zlen (Payload t))) as Hpad.
    rewrite IH by (lia || (apply pad32_aligned; lia)).
    rewrite <- !app_assoc. do 3 f_equal. f_equal.
    unfold paddedLen at 2. rewrite (pad32_shift pos) by lia. lia.
Qed.

(** X2.  Alignment of a written file: when [WriteGGUF] starts at a
    non-negative position and succeeds, the sink stands at a multiple of 32,
    and so does the start of the tensor data region. *)
Theorem X2_written_file_aligned ws (kv : gmap string value) ts ws' :
  0 <= ws_pos ws ->
  WriteGGUF ws kv ts = Ok ws' ->
  ws_pos ws' mod 32 = 0
  /\ (ws_pos ws + headLen kv ts + pad32 (ws_pos ws + headLen kv ts)) mod 32 = 0.
Proof.
  intros Hp Hok.
  pose proof (WriteGGUF_ok_writable _ _ _ _ Hok) as Hw.
  rewrite (WriteGGUF_encAt _ _ _ Hw) in Hok. injection Hok as <-.
  rewrite ws_pos_write. unfold encFileAt. cbv zeta. fold (headLen kv ts).
  assert (0 <= headLen kv ts) as Hh by apply zlen_nonneg.
  pose proof (pad32_range (ws_pos ws + headLen kv ts)) as Hpad.
  assert (0 <= ws_pos ws + headLen kv ts) as Hnn by lia.
  pose proof (pad32_aligned _ Hnn) as Hal.
  split; [|done].
  destruct (encPayloads_aligned
              (ws_pos ws + headLen kv ts + pad32 (ws_pos ws + headLen kv ts))
              (sortTensors ts)) as [Ha _]; [lia|done|].
  rewrite zlen_app, (zlen_app (zeros _)), zlen_zeros by lia.
  fold (headLen kv ts). by rewrite !Z.add_assoc.
Qed.

(** X3.  [WriteGGUF] fails on nothing but a value it cannot write: it
    succeeds exactly when every value of the metadata map is of one of the
    eight supported types, whatever the tensors and the sink. *)
Theorem X3_write_succeeds_iff ws (kv : gmap string value) ts :
  is_ok (WriteGGUF ws kv ts) = true
  <-> (forall k v, kv !! k = Some v -> writable v = true).
Proof.
  split.
  - destruct (WriteGGUF ws kv ts) as [ws'| |] eqn:Hok; try done.
    intros _. by eapply WriteGGUF_ok_writable.
  - intros Hw. by rewrite WriteGGUF_encAt.
Qed.

Lemma sumZ_add {A} (f g : A -> Z) l :
  sumZ (fun x => f x + g x) l = sumZ f l + sumZ g l.
Proof. induction l as [|x l IH]; simpl; [done|]. rewrite IH. lia. Qed.

Lemma drop_app_zlen (l1 l2 : list byte) n :
  n = zlen l1 -> drop (Z.to_nat n) (l1 ++ l2) = l2.
Proof. intros ->. unfold zlen. rewrite Nat2Z.id. apply drop_app_length. Qed.

(** X4.  Where payloads lie in a file written from position 0: the data
    region starts at a multiple of 32, and the payload of each tensor, in
    ascending name order, starts after the payloads before it, each padded
    to a multiple of 32.  When those payloads have the sizes their
    descriptors declare and the sizes add up to less than 2^64, the start of
    a payload relative to the data region is the offset recorded in its
    descriptor plus the padding inserted before it; the two agree when every
    earlier size is a multiple of 32. *)
Theorem X4_payload_positions (kv : gmap string value) ts ws l1 t l2 :
  WriteGGUF (mkWS 0 []) kv ts = Ok ws ->
  sortTensors ts = l1 ++ t :: l2 ->
  let start := dataStart kv ts + sumZ paddedLen l1 in
  dataStart kv ts mod 32 = 0
  /\ start mod 32 = 0
  /\ take (length (Payload t)) (drop (Z.to_nat start) (ws_out ws)) = Payload t
  /\ (Forall (fun u => zlen (Payload u) = Tensor_Size u) l1 ->
      sumZ Tensor_Size ts < 2 ^ 64 ->
      exists w, offsetTensors 0 (sortTensors ts) !! length l1 = Some w
                /\ Name w = Name t
                /\ start - dataStart kv ts
                   = Offset w + sumZ (fun u => pad32 (Tensor_Size u)) l1).
Proof.
  intros Hok Hsplit. cbv zeta.
  pose proof (WriteGGUF_ok_writable _ _ _ _ Hok) as Hw.
  rewrite (WriteGGUF_enc kv ts Hw) in Hok. injection Hok as <-. cbn [ws_out].
  assert (0 <= headLen kv ts) as Hh by apply zlen_nonneg.
  pose proof (pad32_range (headLen kv ts)) as Hpad.
  assert (dataStart kv ts mod 32 = 0) as HD by (by apply pad32_aligned).
  assert (0 <= dataStart kv ts) as HD0 by (unfold dataStart; lia).
  destruct (encPayloads_aligned (dataStart kv ts) l1 HD0 HD) as [Hal Hlen].
  assert (0 <= sumZ paddedLen l1) as Hs0.
  { apply sumZ_nonneg. intros u. unfold paddedLen.
    pose proof (zlen_nonneg (Payload u)). pose proof (pad32_range (zlen (Payload u))). lia. }
  split; [done|]. split; [by rewrite <- Hlen|]. split.
  - set (hd := magic ++ le_bytes 4 3 ++ le_bytes 8 (zlen ts)
               ++ le_bytes 8 (Z.of_nat (size kv))
               ++ flat_map (encEntry kv) (sortedKeys kv)
               ++ flat_map encTensorInfo (offsetTensors 0 (sortTensors ts))).
    assert (exists post,
              encFile kv ts
              = (hd ++ zeros (pad32 (zlen hd)) ++ encPayloads (dataStart kv ts) l1)
                ++ Payload t ++ post) as [post ->].
    { eexists. unfold encFile. cbv zeta. fold hd. fold (headLen kv ts).
      fold (dataStart kv ts). rewrite Hsplit, encPayloads_app by done.
      cbn [encPayloads]. rewrite <- !app_assoc. reflexivity. }
    rewrite drop_app_zlen.
    + by rewrite take_app_length.
    + rewrite !zlen_app, zlen_zeros, Hlen by apply pad32_range.
      unfold dataStart, headLen. fold hd. lia.
  - intros Hsizes Hsum.
    assert (sortTensors ts !! length l1 = Some t) as Ht.
    { rewrite Hsplit. by rewrite list_lookup_middle. }
    destruct (lookup_lt_is_Some_2 (offsetTensors 0 (sortTensors ts)) (length l1))
      as [w Hw'].
    { rewrite length_offsetTensors. by eapply lookup_lt_Some. }
    exists w. split; [done|].
    apply offsetTensors_lookup in Hw' as (t' & Ht' & ->); [|unfold u64; lia].
    rewrite Ht in Ht'. injection Ht' as <-. split; [done|].
    cbn [Offset set_Offset]. rewrite Z.add_0_l.
    assert (take (length l1) (sortTensors ts) = l1) as ->.
    { rewrite Hsplit. by rewrite take_app_length. }
    assert (0 <= sumZ Tensor_Size l1 <= sumZ Tensor_Size ts) as Hb.
    { rewrite <- (sumZ_Permutation Tensor_Size _ _ (sortTensors_Permutation ts)).
      rewrite Hsplit, sumZ_app.
      pose proof (sumZ_nonneg Tensor_Size l1 (fun u => proj1 (Tensor_Size_range u))).
      pose proof (sumZ_nonneg Tensor_Size (t :: l2)
                    (fun u => proj1 (Tensor_Size_range u))). lia. }
    unfold wrap64, wrap. rewrite Z.mod_small by lia.
    replace (dataStart kv ts + sumZ paddedLen l1 - dataStart kv ts)
      with (sumZ paddedLen l1) by lia.
    rewrite (sumZ_ext_in paddedLen (fun u => Tensor_Size u + pad32 (Tensor_Size u))).
    + apply sumZ_add.
    + eapply Forall_impl; [exact Hsizes|]. intros u Hu. unfold paddedLen.
      by rewrite Hu.
Qed.
End Codec_layout.

Lemma X1_witness :
  exists p, ggufPadding 100 32 = Ok p /\ 0 <= p < 32
            /\ (100 + p) mod 32 = 0 /\ (100 mod 32 = 0 -> p = 0).
Proof. apply (X1_padding_formula 100 32); lia. Defined.

Lemma X2_witness :
  exists ws',
    WriteGGUF (H := four_bytes) (mkWS 5 []) M_example T_example = Ok ws'
    /\ ws_pos ws' mod 32 = 0.
Proof.
  eexists. split; [vm_compute; reflexivity|].
  eapply (X2_written_file_aligned (H := four_bytes) (mkWS 5 []) M_example T_example);
    [vm_compute; discriminate|vm_compute; reflexivity].
Defined.

Lemma X3_witness :
  is_ok (WriteGGUF (H := four_bytes) (mkWS 0 []) M_example T_example) = true.
Proof.
  apply (X3_write_succeeds_iff (H := four_bytes)).
  intros k v Hv. destruct (wf_M_example k v Hv) as [_ Hwf].
  destruct v as [[[] n|b|s]|l|l|l|l|l]; done.
Defined.

Lemma X4_witness :
  exists ws,
    WriteGGUF (H := four_bytes) (mkWS 0 []) M_example T_example = Ok ws
    /\ take 24 (drop (Z.to_nat (dataStart (H := four_bytes) M_example T_example
                                + sumZ paddedLen [mkTensor "w1" 1 0 [4] (le_bytes 16 5)]))
                  (ws_out ws))
       = le_bytes 24 0.
Proof.
  eexists. split; [vm_compute; reflexivity|].
  eapply (X4_payload_positions (H := four_bytes) M_example T_example _
            [mkTensor "w1" 1 0 [4] (le_bytes 16 5)]
            (mkTensor "w2" 0 0 [2; 3] (le_bytes 24 0)) []);
    [vm_compute; reflexivity|reflexivity].
Defined.
(** * Further properties of the writer and the reader *)

Section Codec_more.
Context `{ElementSizes}.

Global Instance name_le_trans :
  Transitive (fun a b : Tensor => str_le (Name a) (Name b)).
Proof. intros a b c ??. by etrans. Qed.

Lemma NoDup_fmap_eq {A B} (f : A -> B) (l : list A) x y :
  NoDup (f <$> l) -> x ∈ l -> y ∈ l -> f x = f y -> x = y.
Proof.
  induction l as [|a l IH]; intros Hnd Hx Hy Hf; [by apply elem_of_nil in Hx|].
  cbn [fmap list_fmap] in Hnd. apply NoDup_cons in Hnd as [Ha Hnd].
  apply elem_of_cons in Hx as [->|Hx]; apply elem_of_cons in Hy as [->|Hy].
  - done.
  - destruct Ha. rewrite Hf. by apply list_elem_of_fmap_2.
  - destruct Ha. rewrite <- Hf. by apply list_elem_of_fmap_2.
  - by apply IH.
Qed.

Lemma sortTensors_unique ts ts' :
  ts ≡ₚ ts' -> NoDup (Name <$> ts) -> sortTensors ts = sortTensors ts'.
Proof.
  intros Hp Hnd.
  apply (Sorted_unique_strong (fun a b : Tensor => str_le (Name a) (Name b))).
  - intros x1 x2 Hx1 Hx2 H12 H21.
    apply (NoDup_fmap_eq Name (sortTensors ts)); [|done| |].
    + rewrite sortTensors_Permutation. exact Hnd.
    + revert Hx2. by rewrite !sortTensors_Permutation, Hp.
    + by apply (anti_symm str_le).
  - apply (insertionSort_Sorted (fun i j => str_less (Name i) (Name j))).
    intros x y. apply str_less_asym.
  - apply (insertionSort_Sorted (fun i j => str_less (Name i) (Name j))).
    intros x y. apply str_less_asym.
  - by rewrite !sortTensors_Permutation.
Qed.

(** X5.  The written file does not depend on the order in which the
    tensors are handed to the writer, as long as their names are distinct:
    two permutations of one tensor list give the same result. *)
Theorem X5_tensor_order_irrelevant ws (kv : gmap string value) ts ts' :
  ts ≡ₚ ts' -> NoDup (Name <$> ts) ->
  WriteGGUF ws kv ts = WriteGGUF ws kv ts'.
Proof.
  intros Hp Hnd. unfold WriteGGUF. cbv zeta.
  rewrite (sortTensors_unique ts ts' Hp Hnd).
  unfold zlen. by rewrite (Permutation_length Hp).
Qed.

Lemma to_signed_mod w v :
  0 < w -> - 2 ^ (w - 1) <= v < 2 ^ (w - 1) -> to_signed w (v mod 2 ^ w) = v.
Proof.
  intros Hw [Hlo Hhi]. unfold to_signed.
  assert (2 ^ w = 2 * 2 ^ (w - 1)) as Hpow.
  { rewrite <- Z.pow_succ_r by lia. f_equal. lia. }
  assert (0 < 2 ^ (w - 1)) by (apply Z.pow_pos_nonneg; lia).
  destruct (decide (0 <= v)) as [Hp|Hn].
  - rewrite Z.mod_small by lia.
    destruct (Z.ltb_spec v (2 ^ (w - 1))); lia.
  - assert (v mod 2 ^ w = v + 2 ^ w) as ->.
    { symmetry. apply (Z.mod_unique _ _ (-1)); lia. }
    destruct (Z.ltb_spec (v + 2 ^ w) (2 ^ (w - 1))); lia.
Qed.

Lemma num_interp_in_range T v :
  in_range T v -> num_interp T (v mod 2 ^ num_bits T) = v.
Proof.
  unfold in_range, num_interp. intros Hr.
  assert (0 < num_bits T) by (unfold num_bits; destruct T; simpl; lia).
  destruct (num_signed T).
  - by apply to_signed_mod.
  - by apply Z.mod_small.
Qed.

(** X6.  A value of any numeric type that is laid out in the byte order of
    the container is read back by [readGGUF] as that value, signed values
    from their two's complement pattern; the stream advances by the width of
    the type. *)
Theorem X6_scalar_roundtrip (T : numtype) (llm : gguf) (v : Z) pre rest :
  in_range T v ->
  readGGUF T llm
    (cursor pre (bo_bytes (gguf_ByteOrder llm) (num_size T) v ++ rest))
  = Ok (v, cursor (pre ++ bo_bytes (gguf_ByteOrder llm) (num_size T) v) rest).
Proof.
  intros Hr. unfold readGGUF, binary_Read.
  assert (length (bo_bytes (gguf_ByteOrder llm) (num_size T) v) = num_size T) as Hl.
  { unfold bo_bytes. destruct (gguf_ByteOrder llm);
      by rewrite ?length_rev, length_le_bytes. }
  rewrite <- Hl at 1. rewrite io_ReadFull_cursor. cbn [rbind].
  assert (bo_val (gguf_ByteOrder llm) (bo_bytes (gguf_ByteOrder llm) (num_size T) v)
          = v mod 2 ^ num_bits T) as ->.
  { unfold bo_val, bo_bytes, num_bits.
    destruct (gguf_ByteOrder llm); by rewrite ?rev_involutive, le_val_le_bytes. }
  by rewrite num_interp_in_range.
Qed.

(** X7.  The string rule of the versions: a version 2 or 3 reader returns
    the whole length-prefixed payload; a version 1 reader, whose recorded
    length counts a final byte, returns the payload without that byte. *)
Theorem X7_string_rule (llm : gguf) (s : string) (b : byte) pre rest :
  gguf_ByteOrder llm = LittleEndian ->
  zstrlen s + 1 < 2 ^ 63 ->
  (gguf_Version llm <> 1 ->
     readGGUFString llm (cursor pre (encString s ++ rest))
     = Ok (s, cursor (pre ++ encString s) rest))
  /\ (gguf_Version llm = 1 ->
      readGGUFString llm
        (cursor pre (le_bytes 8 (zstrlen s + 1) ++ (bytes_of_string s ++ [b]) ++ rest))
      = Ok (s, cursor (pre ++ le_bytes 8 (zstrlen s + 1) ++ bytes_of_string s ++ [b])
                      rest)).
Proof.
  intros Hbo Hlen. pose proof (zstrlen_nonneg s) as Hs. split.
  - intros Hv. apply readGGUFString_cursor; [done|unfold go_len; lia].
  - intros Hv. unfold readGGUFString. rewrite Hv. cbn [Z.eqb Pos.eqb].
    unfold readGGUFV1String. rewrite Hbo, binary_Read_cursor. cbn [rbind].
    change (8 * Z.of_nat 8) with 64.
    rewrite Z.mod_small by (change (2 ^ 64) with (2 * 2 ^ 63); lia).
    rewrite int64_small by lia.
    assert (zlen (bytes_of_string s ++ [b]) = zstrlen s + 1) as Hl.
    { rewrite zlen_app, zlen_bytes_of_string. done. }
    rewrite <- Hl, io_CopyN_cursor. cbn [rbind]. rewrite Hl.
    unfold Buffer_Truncate. replace (zstrlen s + 1 - 1) with (zstrlen s) by lia.
    destruct (Z.eqb_spec (zstrlen s) 0) as [E|E].
    + cbn [rbind]. assert (s = "") as ->.
      { destruct s; [done|]. unfold zstrlen in E. simpl in E. lia. }
      by rewrite <- !app_assoc.
    + rewrite Hl.
      destruct (Z.ltb_spec (zstrlen s) 0); [lia|].
      destruct (Z.ltb_spec (zstrlen s + 1) (zstrlen s)); [lia|].
      cbn [orb rbind]. rewrite <- zlen_bytes_of_string. unfold zlen at 1.
      rewrite Nat2Z.id, take_app_length, string_of_bytes_of_string.
      by rewrite <- !app_assoc.
Qed.

(** X8.  Unknown type codes: a metadata entry whose type code is none of
    the thirteen known ones is refused with the invalid-type error before
    anything of its value is read; an array whose element type is unknown or
    is itself an array is refused with the invalid-array-type error when it
    has at least one element, and accepted as the empty array when it has
    none. *)
Theorem X8_invalid_type_codes (llm : gguf) (t n : Z) (rs : ReadSeeker) pre rest :
  (ggufType_of_code t = None -> decodeValue llm t rs = Err (ErrInvalidType t))
  /\ (reads_le llm -> u32 t -> u64 n ->
      ggufType_of_code t = None \/ ggufType_of_code t = Some ggufTypeArray ->
      readGGUFArray llm (cursor pre (le_bytes 4 t ++ le_bytes 8 n ++ rest))
      = if n =? 0 then Ok ([], cursor (pre ++ le_bytes 4 t ++ le_bytes 8 n) rest)
        else Err (ErrInvalidArrayType t)).
Proof.
  split.
  - intros Ht. unfold decodeValue. by rewrite Ht.
  - intros Hle Ht Hn Hbad. unfold readGGUFArray.
    destruct (Z.eqb_spec (gguf_Version llm) 1); [by destruct Hle|].
    rewrite readGGUF_u32 by done. cbn [rbind].
    rewrite readGGUF_u64 by done. cbn [rbind].
    destruct (Z.eqb_spec n 0) as [->|Hn0].
    + simpl. by rewrite <- !app_assoc.
    + destruct (Z.to_nat n) as [|m] eqn:Hm; [unfold u64 in Hn; lia|].
      cbn [readArrayLoop]. unfold readArrayElem.
      by destruct Hbad as [-> | ->].
Qed.

Lemma decodeKVs_frame n llm rs g rs' :
  decodeKVs n llm rs = Ok (g, rs') ->
  g_tensors g = g_tensors llm /\ g_parameters g = g_parameters llm
  /\ g_container g = g_container llm.
Proof.
  revert llm rs. induction n as [|n IH]; intros llm rs Hok.
  - by injection Hok as <- <-.
  - cbn [decodeKVs] in Hok.
    destruct (readGGUFString llm rs) as [[k rs1]| |]; try done.
    cbn [rbind] in Hok.
    destruct (readGGUF Uint32 llm rs1) as [[t rs2]| |]; try done.
    cbn [rbind] in Hok.
    destruct (decodeValue llm t rs2) as [[v rs3]| |]; try done.
    cbn [rbind] in Hok. by apply IH in Hok.
Qed.

Lemma decodeTensors_frame n llm rs g rs' :
  0 <= g_parameters llm < 2 ^ 64 ->
  decodeTensors n llm rs = Ok (g, rs') ->
  exists l, g_tensors g = g_tensors llm ++ l /\ length l = n
            /\ g_parameters g = wrap64 (g_parameters llm + sumZ Tensor_parameters l)
            /\ g_container g = g_container llm.
Proof.
  revert llm rs. induction n as [|n IH]; intros llm rs Hp Hok.
  - injection Hok as <- <-. exists []. rewrite app_nil_r. simpl.
    rewrite Z.add_0_r. unfold wrap64, wrap. by rewrite Z.mod_small.
  - cbn [decodeTensors] in Hok.
    destruct (readGGUFString llm rs) as [[name rs1]| |]; try done.
    cbn [rbind] in Hok.
    destruct (readGGUF Uint32 llm rs1) as [[dims rs2]| |]; try done.
    cbn [rbind] in Hok.
    destruct (readShape _ llm [] rs2) as [[shape rs3]| |]; try done.
    cbn [rbind] in Hok.
    destruct (readGGUF Uint32 llm rs3) as [[kind rs4]| |]; try done.
    cbn [rbind] in Hok.
    destruct (readGGUF Uint64 llm rs4) as [[offset rs5]| |]; try done.
    cbn [rbind] in Hok.
    apply IH in Hok as (l & Ht & Hl & Hpar & Hc); [|apply wrap64_range].
    exists (mkTensor name kind offset shape [] :: l).
    cbn [add_tensor g_tensors g_parameters g_container] in *.
    rewrite <- app_assoc in Ht. split; [done|]. split; [simpl; lia|].
    split; [|done]. rewrite Hpar.
    change (sumZ Tensor_parameters (mkTensor name kind offset shape [] :: l))
      with (Tensor_parameters (mkTensor name kind offset shape [])
            + sumZ Tensor_parameters l).
    unfold wrap64, wrap. rewrite Zplus_mod_idemp_l. f_equal. lia.
Qed.

(** X9.  Whatever the input stream, byte order and version, a successful
    decode leaves under general.parameter_count the u64 sum of the shape
    products of the tensors it has read, and has read as many tensors as the
    header announced. *)
Theorem X9_parameter_count (c : containerGGUF) (rs : ReadSeeker) (g : gguf) rs' :
  containerGGUF_Decode c rs = Ok (g, rs') ->
  g_kv g !! "general.parameter_count"
  = Some (VUint64 (wrap64 (sumZ Tensor_parameters (g_tensors g))))
  /\ g_parameters g = wrap64 (sumZ Tensor_parameters (g_tensors g))
  /\ length (g_tensors g) = Z.to_nat (numTensor g).
Proof.
  unfold containerGGUF_Decode. cbv zeta. intros Hok.
  destruct (binary_Read 4 (c_ByteOrder c) rs) as [[version rs1]| |]; try done.
  cbn [rbind] in Hok.
  match type of Hok with
  | rbind ?m _ = _ => destruct m as [[c' rs2]| |] eqn:Hc; try done
  end.
  cbn [rbind] in Hok. unfold gguf_Decode in Hok.
  destruct (decodeKVs _ (newGGUF c') rs2) as [[llm1 rs3]| |] eqn:Hkv; try done.
  cbn [rbind] in Hok.
  apply decodeKVs_frame in Hkv as (Ht1 & Hp1 & Hc1).
  destruct (decodeTensors _ llm1 rs3) as [[llm2 rs4]| |] eqn:Hts; try done.
  cbn [rbind] in Hok.
  apply decodeTensors_frame in Hts as (l & Ht2 & Hl & Hp2 & Hc2);
    [|rewrite Hp1; simpl; lia].
  rewrite Ht1 in Ht2. rewrite Hp1 in Hp2. simpl in Ht2, Hp2.
  destruct (Seek_current 0 rs4) as [[off rs5]| |]; try done. cbn [rbind] in Hok.
  destruct (ggufPadding off _) as [padding| |]; try done. cbn [rbind] in Hok.
  destruct (Seek_current padding rs5) as [[? rs6]| |]; try done.
  cbn [rbind] in Hok.
  destruct (skipTensors _ _ rs6) as [rs7| |]; try done. cbn [rbind] in Hok.
  injection Hok as <- <-. cbn [set_kv g_kv g_tensors g_parameters].
  rewrite lookup_insert_eq, Ht2, Hp2. repeat split.
  rewrite Hl. unfold numTensor, gguf_Version. cbn [set_kv g_container].
  by rewrite Hc2, Hc1.
Qed.
End Codec_more.

Lemma X5_witness :
  WriteGGUF (H := four_bytes) (mkWS 0 []) M_example T_example
  = WriteGGUF (H := four_bytes) (mkWS 0 []) M_example (rev T_example).
Proof.
  apply (X5_tensor_order_irrelevant (H := four_bytes)).
  - apply Permutation_swap.
  - cbn. repeat constructor; set_solver.
Defined.

Lemma X6_witness :
  readGGUF Int16 (NewGGUFV3 BigEndian)
    (cursor [] (bo_bytes BigEndian 2 (-2) ++ []))
  = Ok (-2, cursor ([] ++ bo_bytes BigEndian 2 (-2)) []).
Proof.
  apply (X6_scalar_roundtrip Int16 (NewGGUFV3 BigEndian) (-2) [] []).
  vm_compute. split; [discriminate|reflexivity].
Defined.

Lemma X7_witness :
  readGGUFString gguf_v1
    (cursor [] (le_bytes 8 (zstrlen "hi" + 1) ++ (bytes_of_string "hi" ++ [x00]) ++ []))
  = Ok ("hi", cursor ([] ++ le_bytes 8 (zstrlen "hi" + 1) ++ bytes_of_string "hi" ++ [x00]) []).
Proof.
  destruct (X7_string_rule gguf_v1 "hi" x00 [] []) as [_ H1];
    [reflexivity|reflexivity|]. by apply H1.
Defined.

Lemma X8_witness :
  readGGUFArray (NewGGUFV3 LittleEndian)
    (cursor [] (le_bytes 4 9 ++ le_bytes 8 2 ++ []))
  = Err (ErrInvalidArrayType 9).
Proof.
  destruct (X8_invalid_type_codes (NewGGUFV3 LittleEndian) 9 2 (mkRS [] 0) [] [])
    as [_ H2].
  apply H2; [done|unfold u32; lia|unfold u64; lia|by right].
Defined.

Lemma X9_witness :
  exists g rs,
    containerGGUF_Decode (H := four_bytes) container0
      (mkRS (encFile (H := four_bytes) M_example T_example) 4) = Ok (g, rs)
    /\ g_kv g !! "general.parameter_count" = Some (VUint64 10).
Proof.
  eexists _, _. split; [vm_compute; reflexivity|].
  edestruct (X9_parameter_count (H := four_bytes) container0
               (mkRS (encFile (H := four_bytes) M_example T_example) 4))
    as (H1 & _); [vm_compute; reflexivity|].
  exact H1.
Defined.
